(** * useHistoryState: the undo/redo history hook of the contacts manager

    A shallow embedding of [hooks/useHistoryState.ts].  The hook keeps one
    React state cell holding a [HistoryState]; every callback it returns
    either does nothing or hands [setState] a replacement value or an
    updater function.  The embedding keeps that shape: the updaters are
    functions on [HistoryState], the callbacks are functions of the state
    of the render that created them, and a call is performed by letting
    React apply what the callback queued. *)

From Stdlib Require Import List ZArith String Bool Lia.
Import ListNotations.
Local Open Scope string_scope.
Local Open Scope list_scope.

(** ** The JavaScript array operations the hook uses *)

Module JsArray.

(** [a.length] *)
Definition length {A : Type} (a : list A) : Z := Z.of_nat (List.length a).

(** [a[i]]: [undefined] (here [None]) when [i] is negative or past the end. *)
Definition get {A : Type} (a : list A) (i : Z) : option A :=
  if (i <? 0)%Z then None else nth_error a (Z.to_nat i).

(** How [Array.prototype.slice] turns an argument into a position:
    a negative one counts from the end, and both are clamped to [0..len]. *)
Definition relative (len i : Z) : Z :=
  if (i <? 0)%Z then Z.max (len + i) 0 else Z.min i len.

(** [a.slice(start, end)] *)
Definition slice {A : Type} (a : list A) (start end_ : Z) : list A :=
  let len := length a in
  let k := relative len start in
  let final := relative len end_ in
  firstn (Z.to_nat (final - k)) (skipn (Z.to_nat k) a).

(** [a.slice(start)]: an omitted [end] is [a.length]. *)
Definition slice_from {A : Type} (a : list A) (start : Z) : list A :=
  slice a start (length a).

End JsArray.

(** ** Data model *)

(** [type HistoryEntry<T> = { state: T; label: string }] *)
Record HistoryEntry (T : Type) : Type := {
  state : T;
  label : string
}.
Arguments Build_HistoryEntry {T} _ _.
Arguments state {T} _.
Arguments label {T} _.

(** [type HistoryState<T> = { past; present; future }] *)
Record HistoryState (T : Type) : Type := {
  past : list (HistoryEntry T);
  present : HistoryEntry T;
  future : list (HistoryEntry T)
}.
Arguments Build_HistoryState {T} _ _ _.
Arguments past {T} _.
Arguments present {T} _.
Arguments future {T} _.

(** What a callback may hand to React's [setState]: a replacement state, or
    an updater run on the state current at that moment.  An updater yields
    [None] when the object it builds is not a [HistoryState] because a slot
    of it holds [undefined]; the next render would then throw on
    [state.present.state]. *)
Inductive SetStateAction (T : Type) : Type :=
| Replace (next : HistoryState T)
| Update (updater : HistoryState T -> option (HistoryState T)).
Arguments Replace {T} _.
Arguments Update {T} _.

(** The first argument of [set]: [T | ((currentState: T) => T)], told apart
    in the source by [typeof newPresentState === 'function']. *)
Inductive SetArg (T : Type) : Type :=
| Value (v : T)
| Updater (f : T -> T).
Arguments Value {T} _.
Arguments Updater {T} _.

(** The calls a client can make on the object the hook returns.  A label of
    [None] is an omitted argument; [localeTime] is what
    [new Date().toLocaleTimeString()] yields at the moment [set] is called. *)
Inductive Call (T : Type) : Type :=
| CallSet (newPresentState : SetArg T) (label : option string) (localeTime : string)
| CallUndo
| CallRedo
| CallSetInitial (initialState : T) (label : option string)
| CallClearHistory.
Arguments CallSet {T} _ _ _.
Arguments CallUndo {T}.
Arguments CallRedo {T}.
Arguments CallSetInitial {T} _ _.
Arguments CallClearHistory {T}.

(** The data fields of the object [useHistoryState] returns. *)
Record HookValue (T : Type) : Type := {
  hook_state : T;
  hook_canUndo : bool;
  hook_canRedo : bool;
  hook_history : list (HistoryEntry T);
  hook_currentLabel : string
}.
Arguments Build_HookValue {T} _ _ _ _ _.
Arguments hook_state {T} _.
Arguments hook_canUndo {T} _.
Arguments hook_canRedo {T} _.
Arguments hook_history {T} _.
Arguments hook_currentLabel {T} _.

(** ** The hook *)

Section Hook.

Context {T : Type}.

(** The host's [===] on values of type [T]. *)
Variable strict_eq : T -> T -> bool.

(** The argument of [useState]: the state of the first render. *)
Definition initialState (initialPresent : T) (initialLabel : option string)
  : HistoryState T :=
  let initialLabel := match initialLabel with
                      | Some l => l
                      | None => "Initial State"
                      end in
  {| past := [];
     present := {| state := initialPresent; label := initialLabel |};
     future := [] |}.

(** [const canUndo = state.past.length > 0] *)
Definition canUndo (st : HistoryState T) : bool :=
  (JsArray.length (past st) >? 0)%Z.

(** [const canRedo = state.future.length > 0] *)
Definition canRedo (st : HistoryState T) : bool :=
  (JsArray.length (future st) >? 0)%Z.

(** The updater [undo] passes to [setState]. *)
Definition undo_updater (currentState : HistoryState T)
  : option (HistoryState T) :=
  let previous :=
    JsArray.get (past currentState) (JsArray.length (past currentState) - 1) in
  let newPast :=
    JsArray.slice (past currentState) 0 (JsArray.length (past currentState) - 1) in
  match previous with
  | Some previous =>
      Some {| past := newPast;
              present := previous;
              future := present currentState :: future currentState |}
  | None => None
  end.

(** The updater [redo] passes to [setState]. *)
Definition redo_updater (currentState : HistoryState T)
  : option (HistoryState T) :=
  let next := JsArray.get (future currentState) 0 in
  let newFuture := JsArray.slice_from (future currentState) 1 in
  match next with
  | Some next =>
      Some {| past := past currentState ++ [present currentState];
              present := next;
              future := newFuture |}
  | None => None
  end.

(** [typeof newPresentState === 'function' ? newPresentState(cur) : newPresentState] *)
Definition resolve (newPresentState : SetArg T) (cur : T) : T :=
  match newPresentState with
  | Updater f => f cur
  | Value v => v
  end.

(** The updater [set] passes to [setState]. *)
Definition set_updater (newPresentState : SetArg T) (label : string)
  (currentState : HistoryState T) : option (HistoryState T) :=
  let resolvedPresentState :=
    resolve newPresentState (state (present currentState)) in
  if strict_eq resolvedPresentState (state (present currentState))
  then Some currentState
  else
    let newPresentEntry := {| state := resolvedPresentState; label := label |} in
    Some {| past := past currentState ++ [present currentState];
            present := newPresentEntry;
            future := [] |}.

(** The updater [clearHistory] passes to [setState]:
    [{ ...currentState, past: [], future: [] }]. *)
Definition clearHistory_updater (currentState : HistoryState T)
  : option (HistoryState T) :=
  Some {| past := [];
          present := present currentState;
          future := [] |}.

(** The default of [set]'s [label] parameter. *)
Definition set_default_label (localeTime : string) : string :=
  "Update at " ++ localeTime.

(** The callbacks, as created by the render of state [st]: each yields the
    [setState] calls it makes, in order.  [undo] and [redo] test the
    [canUndo] and [canRedo] of that render before calling [setState]. *)

Definition undo (st : HistoryState T) : list (SetStateAction T) :=
  if negb (canUndo st) then [] else [Update undo_updater].

Definition redo (st : HistoryState T) : list (SetStateAction T) :=
  if negb (canRedo st) then [] else [Update redo_updater].

Definition set (newPresentState : SetArg T) (label : option string)
  (localeTime : string) : list (SetStateAction T) :=
  let label := match label with
               | Some l => l
               | None => set_default_label localeTime
               end in
  [Update (set_updater newPresentState label)].

Definition setInitial (initialState : T) (label : option string)
  : list (SetStateAction T) :=
  let label := match label with
               | Some l => l
               | None => "Initial State"
               end in
  [Replace {| past := [];
              present := {| state := initialState; label := label |};
              future := [] |}].

Definition clearHistory : list (SetStateAction T) :=
  [Update clearHistory_updater].

(** The data of the object the hook returns for the render of state [st]:
    [state: state.present.state], [canUndo], [canRedo],
    [history: [...state.past, state.present]] and
    [currentLabel: state.present.label]. *)
Definition useHistoryState (st : HistoryState T) : HookValue T :=
  {| hook_state := state (present st);
     hook_canUndo := canUndo st;
     hook_canRedo := canRedo st;
     hook_history := past st ++ [present st];
     hook_currentLabel := label (present st) |}.

(** ** React's side: applying what was queued *)

(** One queued [setState] argument applied to the current state.  Once the
    state object is malformed every updater of the hook keeps it
    malformed; a replacement value installs a proper state again. *)
Definition apply_action (cur : option (HistoryState T))
  (a : SetStateAction T) : option (HistoryState T) :=
  match a with
  | Replace next => Some next
  | Update updater =>
      match cur with
      | Some st => updater st
      | None => None
      end
  end.

(** The queue is processed in order, starting from the rendered state. *)
Definition commit (st : HistoryState T) (queue : list (SetStateAction T))
  : option (HistoryState T) :=
  fold_left apply_action queue (Some st).

(** What a call made on the render of [st] queues. *)
Definition invoke (st : HistoryState T) (c : Call T)
  : list (SetStateAction T) :=
  match c with
  | CallSet newPresentState label localeTime =>
      set newPresentState label localeTime
  | CallUndo => undo st
  | CallRedo => redo st
  | CallSetInitial initialState label => setInitial initialState label
  | CallClearHistory => clearHistory
  end.

(** One call on the latest render, then the re-render: the state the
    client sees next, or [None] if that render would throw. *)
Definition perform (st : HistoryState T) (c : Call T)
  : option (HistoryState T) :=
  commit st (invoke st c).

(** A sequence of calls, each made on the render that follows the
    previous one. *)
Fixpoint run (st : HistoryState T) (calls : list (Call T))
  : option (HistoryState T) :=
  match calls with
  | [] => Some st
  | c :: calls' =>
      match perform st c with
      | Some st' => run st' calls'
      | None => None
      end
  end.

(** The states seen after each call of a sequence. *)
Fixpoint trace (st : HistoryState T) (calls : list (Call T))
  : list (option (HistoryState T)) :=
  match calls with
  | [] => []
  | c :: calls' =>
      match perform st c with
      | Some st' => Some st' :: trace st' calls'
      | None => [None]
      end
  end.

(** Several calls made from one event handler, all on the callbacks of the
    same render [st]: React queues every [setState] and processes the
    queue afterwards. *)
Definition perform_batch (st : HistoryState T) (calls : list (Call T))
  : option (HistoryState T) :=
  commit st (flat_map (invoke st) calls).

(** The sequences of [undo()] and [redo()] calls over which the inverse law
    is stated: every undo finds an entry in [past] ([avail] counts the
    entries there), every redo answers an undo made earlier in the sequence
    ([pending] counts the undos not yet answered), and at the end no undo
    is left unanswered. *)
Fixpoint undos_answered (avail pending : nat) (calls : list (Call T)) : bool :=
  match calls with
  | [] => Nat.eqb pending 0
  | CallUndo :: calls' =>
      match avail with
      | O => false
      | S avail' => undos_answered avail' (S pending) calls'
      end
  | CallRedo :: calls' =>
      match pending with
      | O => false
      | S pending' => undos_answered (S avail) pending' calls'
      end
  | _ :: _ => false
  end.

(** The whole chronological line of entries a state holds. *)
Definition timeline (st : HistoryState T) : list (HistoryEntry T) :=
  past st ++ [present st] ++ future st.

End Hook.

(** ** A model of the host's values and of [===]

    The application instantiates the hook at [Contact[]], an array type, so
    the stored values are references into the heap.  The hook itself is
    generic; this instance gives [===] its meaning on primitives and on
    references. *)

Module Js.

(** JavaScript values: the primitives (numbers restricted to the integers
    and [NaN]) and references to heap objects. *)
Inductive JsValue : Type :=
| JsUndefined
| JsNull
| JsBoolean (b : bool)
| JsNumber (n : Z)
| JsNaN
| JsString (s : string)
| JsObject (ref : nat).

(** [a === b] (IsStrictlyEqual): values of different types differ, [NaN]
    equals nothing, primitives compare by value and objects by
    reference. *)
Definition strict_eq (a b : JsValue) : bool :=
  match a, b with
  | JsUndefined, JsUndefined => true
  | JsNull, JsNull => true
  | JsBoolean x, JsBoolean y => Bool.eqb x y
  | JsNumber x, JsNumber y => Z.eqb x y
  | JsString x, JsString y => String.eqb x y
  | JsObject r1, JsObject r2 => Nat.eqb r1 r2
  | _, _ => false
  end.

(** The heap: the object at reference [r] is the [r]-th element, given by
    the values of its slots in order (an array's elements). *)
Definition Heap : Type := list (list JsValue).

(** Slot-by-slot comparison of two objects. *)
Fixpoint slots_equal (eq : JsValue -> JsValue -> bool)
  (xs ys : list JsValue) : bool :=
  match xs, ys with
  | [], [] => true
  | x :: xs', y :: ys' => eq x y && slots_equal eq xs' ys'
  | _, _ => false
  end.

(** Deep (structural) equality in heap [h], to depth [depth]: primitives
    compare as with [===]; two references are equal when the objects
    they point to have equal slots. *)
Fixpoint deep_equal (depth : nat) (h : Heap) (a b : JsValue) : bool :=
  match a, b with
  | JsObject r1, JsObject r2 =>
      match depth with
      | O => false
      | S depth' =>
          match nth_error h r1, nth_error h r2 with
          | Some o1, Some o2 => slots_equal (deep_equal depth' h) o1 o2
          | _, _ => false
          end
      end
  | _, _ => strict_eq a b
  end.

(** An entry holding a number, as in the worked example of the spec. *)
Definition num_entry (n : Z) (l : string) : HistoryEntry JsValue :=
  {| state := JsNumber n; label := l |}.

End Js.

(** ** Concrete states and heaps used to exercise the statements *)

Module Samples.

Import Js.

(** The state of the worked example after [set(1); set(2); undo()]:
    one entry behind, one ahead. *)
Definition middle : HistoryState JsValue :=
  {| past := [num_entry 0 "Initial State"];
     present := num_entry 1 "inc";
     future := [num_entry 2 "inc"] |}.

(** A freshly constructed hook holding [0]. *)
Definition fresh : HistoryState JsValue :=
  initialState (JsNumber 0) None.

(** Two contact lists allocated separately with the same content. *)
Definition twin_heap : Heap :=
  [[JsString "Ann"; JsNumber 42]; [JsString "Ann"; JsNumber 42]].

(** A hook whose present value is the first of the two lists. *)
Definition holding_first : HistoryState JsValue :=
  {| past := [];
     present := {| state := JsObject 0; label := "Initial State" |};
     future := [] |}.

(** A state with two entries behind the present one and one ahead. *)
Definition deep : HistoryState JsValue :=
  {| past := [num_entry 0 "Initial State"; num_entry 1 "inc"];
     present := num_entry 2 "inc";
     future := [num_entry 5 "jump"] |}.

End Samples.

(** ** Shapes of call sequences *)

Section CallShapes.

Context {T : Type}.

(** The calls whose callback does not look at the rendered state: [set],
    [setInitial] and [clearHistory] are created with an empty dependency
    list and always call [setState]. *)
Definition unguarded (c : Call T) : bool :=
  match c with
  | CallUndo | CallRedo => false
  | _ => true
  end.

Definition is_undo (c : Call T) : bool :=
  match c with
  | CallUndo => true
  | _ => false
  end.

Definition is_redo (c : Call T) : bool :=
  match c with
  | CallRedo => true
  | _ => false
  end.

Definition is_set (c : Call T) : bool :=
  match c with
  | CallSet _ _ _ => true
  | _ => false
  end.

End CallShapes.

(** ** The contacts the application keeps in the hook

    [App.tsx] instantiates the hook at [Contact[]] and changes the list
    only through [setContacts(prev => ..., label)].  The records follow
    [types.ts]; an optional property is an [option], [None] standing for a
    property that is absent or [undefined]. *)

Module LabeledEntry.

Record t : Type := {
  label : string;
  value : string
}.

End LabeledEntry.

Module Address.

Record t : Type := {
  street : option string;
  city : option string;
  state : option string;
  country : option string;
  zip : option string
}.

End Address.

(** ['call' | 'message' | 'email' | 'whatsapp' | 'video_call'] *)
Inductive ActivityType : Type :=
| call
| message
| email
| whatsapp
| video_call.

Module ActivityLog.

Record t : Type := {
  id : string;
  type : ActivityType;
  timestamp : string;
  notes : option string
}.

End ActivityLog.

Inductive Gender : Type :=
| male
| female
| other
| prefer_not_to_say.

Inductive ReminderSetting : Type :=
| reminder_none
| reminder_1_day
| reminder_3_days
| reminder_7_days.

(** ['Family' | 'Friends' | 'Work' | 'Other' | ''] *)
Inductive Group : Type :=
| Family
| Friends
| Work
| Other
| NoGroup.

Module Contact.

Record t : Type := {
  id : string;
  firstName : string;
  lastName : string;
  nickname : option string;
  gender : option Gender;
  phones : list LabeledEntry.t;
  emails : list LabeledEntry.t;
  website : option string;
  address : option Address.t;
  company : option string;
  jobTitle : option string;
  notes : option string;
  birthday : option string;
  reminderSetting : option ReminderSetting;
  isFavorite : bool;
  profilePicture : option string;
  group : option Group;
  tags : list string;
  socialMediaLinks : option (list LabeledEntry.t);
  createdAt : string;
  isArchived : option bool;
  isBlocked : option bool;
  isPrivate : option bool;
  deletedAt : option string;
  activityLog : option (list ActivityLog.t);
  linkedContactIds : option (list string)
}.

(** [{ ...c, deletedAt: v }] *)
Definition with_deletedAt (c : t) (v : option string) : t :=
  {| id := id c;
     firstName := firstName c;
     lastName := lastName c;
     nickname := nickname c;
     gender := gender c;
     phones := phones c;
     emails := emails c;
     website := website c;
     address := address c;
     company := company c;
     jobTitle := jobTitle c;
     notes := notes c;
     birthday := birthday c;
     reminderSetting := reminderSetting c;
     isFavorite := isFavorite c;
     profilePicture := profilePicture c;
     group := group c;
     tags := tags c;
     socialMediaLinks := socialMediaLinks c;
     createdAt := createdAt c;
     isArchived := isArchived c;
     isBlocked := isBlocked c;
     isPrivate := isPrivate c;
     deletedAt := v;
     activityLog := activityLog c;
     linkedContactIds := linkedContactIds c |}.

(** [{ ...c, isArchived: v }] *)
Definition with_isArchived (c : t) (v : bool) : t :=
  {| id := id c;
     firstName := firstName c;
     lastName := lastName c;
     nickname := nickname c;
     gender := gender c;
     phones := phones c;
     emails := emails c;
     website := website c;
     address := address c;
     company := company c;
     jobTitle := jobTitle c;
     notes := notes c;
     birthday := birthday c;
     reminderSetting := reminderSetting c;
     isFavorite := isFavorite c;
     profilePicture := profilePicture c;
     group := group c;
     tags := tags c;
     socialMediaLinks := socialMediaLinks c;
     createdAt := createdAt c;
     isArchived := Some v;
     isBlocked := isBlocked c;
     isPrivate := isPrivate c;
     deletedAt := deletedAt c;
     activityLog := activityLog c;
     linkedContactIds := linkedContactIds c |}.

(** [{ ...c, isBlocked: v }] *)
Definition with_isBlocked (c : t) (v : bool) : t :=
  {| id := id c;
     firstName := firstName c;
     lastName := lastName c;
     nickname := nickname c;
     gender := gender c;
     phones := phones c;
     emails := emails c;
     website := website c;
     address := address c;
     company := company c;
     jobTitle := jobTitle c;
     notes := notes c;
     birthday := birthday c;
     reminderSetting := reminderSetting c;
     isFavorite := isFavorite c;
     profilePicture := profilePicture c;
     group := group c;
     tags := tags c;
     socialMediaLinks := socialMediaLinks c;
     createdAt := createdAt c;
     isArchived := isArchived c;
     isBlocked := Some v;
     isPrivate := isPrivate c;
     deletedAt := deletedAt c;
     activityLog := activityLog c;
     linkedContactIds := linkedContactIds c |}.

(** [{ ...c, isArchived: archive, isBlocked: false }] *)
Definition with_archived_unblocked (c : t) (archive : bool) : t :=
  {| id := id c;
     firstName := firstName c;
     lastName := lastName c;
     nickname := nickname c;
     gender := gender c;
     phones := phones c;
     emails := emails c;
     website := website c;
     address := address c;
     company := company c;
     jobTitle := jobTitle c;
     notes := notes c;
     birthday := birthday c;
     reminderSetting := reminderSetting c;
     isFavorite := isFavorite c;
     profilePicture := profilePicture c;
     group := group c;
     tags := tags c;
     socialMediaLinks := socialMediaLinks c;
     createdAt := createdAt c;
     isArchived := Some archive;
     isBlocked := Some false;
     isPrivate := isPrivate c;
     deletedAt := deletedAt c;
     activityLog := activityLog c;
     linkedContactIds := linkedContactIds c |}.

(** [{ ...c, isBlocked: block, isArchived: false }] *)
Definition with_blocked_unarchived (c : t) (block : bool) : t :=
  {| id := id c;
     firstName := firstName c;
     lastName := lastName c;
     nickname := nickname c;
     gender := gender c;
     phones := phones c;
     emails := emails c;
     website := website c;
     address := address c;
     company := company c;
     jobTitle := jobTitle c;
     notes := notes c;
     birthday := birthday c;
     reminderSetting := reminderSetting c;
     isFavorite := isFavorite c;
     profilePicture := profilePicture c;
     group := group c;
     tags := tags c;
     socialMediaLinks := socialMediaLinks c;
     createdAt := createdAt c;
     isArchived := Some false;
     isBlocked := Some block;
     isPrivate := isPrivate c;
     deletedAt := deletedAt c;
     activityLog := activityLog c;
     linkedContactIds := linkedContactIds c |}.

(** [{ ...c, activityLog: v }] *)
Definition with_activityLog (c : t) (v : list ActivityLog.t) : t :=
  {| id := id c;
     firstName := firstName c;
     lastName := lastName c;
     nickname := nickname c;
     gender := gender c;
     phones := phones c;
     emails := emails c;
     website := website c;
     address := address c;
     company := company c;
     jobTitle := jobTitle c;
     notes := notes c;
     birthday := birthday c;
     reminderSetting := reminderSetting c;
     isFavorite := isFavorite c;
     profilePicture := profilePicture c;
     group := group c;
     tags := tags c;
     socialMediaLinks := socialMediaLinks c;
     createdAt := createdAt c;
     isArchived := isArchived c;
     isBlocked := isBlocked c;
     isPrivate := isPrivate c;
     deletedAt := deletedAt c;
     activityLog := Some v;
     linkedContactIds := linkedContactIds c |}.

(** [{ ...c, linkedContactIds: v }] *)
Definition with_linkedContactIds (c : t) (v : option (list string)) : t :=
  {| id := id c;
     firstName := firstName c;
     lastName := lastName c;
     nickname := nickname c;
     gender := gender c;
     phones := phones c;
     emails := emails c;
     website := website c;
     address := address c;
     company := company c;
     jobTitle := jobTitle c;
     notes := notes c;
     birthday := birthday c;
     reminderSetting := reminderSetting c;
     isFavorite := isFavorite c;
     profilePicture := profilePicture c;
     group := group c;
     tags := tags c;
     socialMediaLinks := socialMediaLinks c;
     createdAt := createdAt c;
     isArchived := isArchived c;
     isBlocked := isBlocked c;
     isPrivate := isPrivate c;
     deletedAt := deletedAt c;
     activityLog := activityLog c;
     linkedContactIds := v |}.

(** [{ ...contactData, id: newId, createdAt: now, activityLog: [] }] *)
Definition as_new (c : t) (newId now : string) : t :=
  {| id := newId;
     firstName := firstName c;
     lastName := lastName c;
     nickname := nickname c;
     gender := gender c;
     phones := phones c;
     emails := emails c;
     website := website c;
     address := address c;
     company := company c;
     jobTitle := jobTitle c;
     notes := notes c;
     birthday := birthday c;
     reminderSetting := reminderSetting c;
     isFavorite := isFavorite c;
     profilePicture := profilePicture c;
     group := group c;
     tags := tags c;
     socialMediaLinks := socialMediaLinks c;
     createdAt := now;
     isArchived := isArchived c;
     isBlocked := isBlocked c;
     isPrivate := isPrivate c;
     deletedAt := deletedAt c;
     activityLog := Some [];
     linkedContactIds := linkedContactIds c |}.

End Contact.

Module Contacts.

(** JavaScript's truthiness of an optional string and of an optional
    boolean: [undefined], the empty string and [false] are falsy. *)
Definition truthy_string (v : option string) : bool :=
  match v with
  | Some s => negb (String.eqb s "")
  | None => false
  end.

Definition truthy_boolean (v : option bool) : bool :=
  match v with
  | Some b => b
  | None => false
  end.

(** [ids.includes(x)] on an array of strings. *)
Definition includes (ids : list string) (x : string) : bool :=
  existsb (String.eqb x) ids.

(** [a.map((c, i) => f(i, c))], the elements visited in order; [from] is
    the index of the first one. *)
Fixpoint map_from {A B : Type} (from : nat) (f : nat -> A -> B) (a : list A)
  : list B :=
  match a with
  | [] => []
  | x :: rest => f from x :: map_from (S from) f rest
  end.

(** The four views [App] derives from [contacts] with [useMemo]. *)

Definition activeContacts (contacts : list Contact.t) : list Contact.t :=
  filter (fun c => negb (truthy_boolean (Contact.isArchived c))
                   && negb (truthy_boolean (Contact.isBlocked c))
                   && negb (truthy_string (Contact.deletedAt c))) contacts.

Definition archivedContacts (contacts : list Contact.t) : list Contact.t :=
  filter (fun c => truthy_boolean (Contact.isArchived c)
                   && negb (truthy_string (Contact.deletedAt c))) contacts.

Definition blockedContacts (contacts : list Contact.t) : list Contact.t :=
  filter (fun c => truthy_boolean (Contact.isBlocked c)
                   && negb (truthy_string (Contact.deletedAt c))) contacts.

Definition trashContacts (contacts : list Contact.t) : list Contact.t :=
  filter (fun c => truthy_string (Contact.deletedAt c)) contacts.

(** [contacts.find(c => c.id === contactId)] *)
Definition findById (contacts : list Contact.t) (contactId : string)
  : option Contact.t :=
  find (fun c => String.eqb (Contact.id c) contactId) contacts.

(** The updaters the callbacks of [App] pass to [setContacts].  A clock
    argument gives what [Date.now().toString()] or
    [new Date().toISOString()] yields while the element at that index is
    visited. *)

(** [addContact]: [prev => [newContact, ...prev]] *)
Definition addContact (contactData : Contact.t) (newId now : string)
  (prev : list Contact.t) : list Contact.t :=
  let newContact := Contact.as_new contactData newId now in
  newContact :: prev.

(** [updateContact]: [prev.map(c => c.id === updatedContact.id ? updatedContact : c)] *)
Definition updateContact (updatedContact : Contact.t) (prev : list Contact.t)
  : list Contact.t :=
  map (fun c => if String.eqb (Contact.id c) (Contact.id updatedContact)
                then updatedContact else c) prev.

(** [moveContactsToTrash]: the test made on the rendered [contacts] before
    [setContacts] is called. *)
Definition contactsToTrash (contacts : list Contact.t) (contactIds : list string)
  : list Contact.t :=
  filter (fun c => includes contactIds (Contact.id c)) contacts.

(** [moveContactsToTrash]:
    [prev.map(c => contactIds.includes(c.id) ? { ...c, deletedAt: new Date().toISOString() } : c)] *)
Definition moveContactsToTrash (contactIds : list string) (clock : nat -> string)
  (prev : list Contact.t) : list Contact.t :=
  map_from 0 (fun i c => if includes contactIds (Contact.id c)
                         then Contact.with_deletedAt c (Some (clock i))
                         else c) prev.

(** [restoreContactFromTrash]:
    [prev.map(c => c.id === contactId ? { ...c, deletedAt: undefined } : c)] *)
Definition restoreContactFromTrash (contactId : string) (prev : list Contact.t)
  : list Contact.t :=
  map (fun c => if String.eqb (Contact.id c) contactId
                then Contact.with_deletedAt c None else c) prev.

(** [deleteContactPermanently]: [prev.filter(c => c.id !== contactId)] *)
Definition deleteContactPermanently (contactId : string) (prev : list Contact.t)
  : list Contact.t :=
  filter (fun c => negb (String.eqb (Contact.id c) contactId)) prev.

(** [toggleArchiveContact] *)
Definition toggleArchiveContact (contactId : string) (archive : bool)
  (prev : list Contact.t) : list Contact.t :=
  map (fun c => if String.eqb (Contact.id c) contactId
                then Contact.with_archived_unblocked c archive else c) prev.

(** [toggleBlockContact] *)
Definition toggleBlockContact (contactId : string) (block : bool)
  (prev : list Contact.t) : list Contact.t :=
  map (fun c => if String.eqb (Contact.id c) contactId
                then Contact.with_blocked_unarchived c block else c) prev.

(** [logActivity]: the new entry goes in front of the contact's log,
    [c.activityLog || []]. *)
Definition logActivity (contactId : string) (type : ActivityType)
  (notes : option string) (clockId clockIso : nat -> string)
  (prev : list Contact.t) : list Contact.t :=
  map_from 0
    (fun i c =>
       if String.eqb (Contact.id c) contactId
       then
         let newLog := {| ActivityLog.id := clockId i;
                          ActivityLog.type := type;
                          ActivityLog.timestamp := clockIso i;
                          ActivityLog.notes := notes |} in
         let updatedLogs :=
           newLog :: match Contact.activityLog c with
                     | Some logs => logs
                     | None => []
                     end in
         Contact.with_activityLog c updatedLogs
       else c) prev.

(** [handleMergeContacts]: remove, then replace. *)
Definition handleMergeContacts (contactToKeep : Contact.t)
  (idsToRemove : list string) (prev : list Contact.t) : list Contact.t :=
  let filtered := filter (fun c => negb (includes idsToRemove (Contact.id c))) prev in
  map (fun c => if String.eqb (Contact.id c) (Contact.id contactToKeep)
                then contactToKeep else c) filtered.

(** [contact.linkedContactIds?.filter(id => id !== removed)] *)
Definition without_link (links : option (list string)) (removed : string)
  : option (list string) :=
  match links with
  | Some ids => Some (filter (fun id => negb (String.eqb id removed)) ids)
  | None => None
  end.

(** [handleUnlinkContact] *)
Definition handleUnlinkContact (sourceId targetId : string)
  (prev : list Contact.t) : list Contact.t :=
  map (fun contact =>
         if String.eqb (Contact.id contact) sourceId
         then Contact.with_linkedContactIds contact
                (without_link (Contact.linkedContactIds contact) targetId)
         else if String.eqb (Contact.id contact) targetId
         then Contact.with_linkedContactIds contact
                (without_link (Contact.linkedContactIds contact) sourceId)
         else contact) prev.

(** The bulk actions of the settings page.  Each takes its [ids] from a
    view of the rendered [contacts] and passes an updater to
    [setContacts]. *)

(** [handleUnarchiveAll] *)
Definition handleUnarchiveAll (contacts prev : list Contact.t) : list Contact.t :=
  let ids := map Contact.id (archivedContacts contacts) in
  map (fun c => if includes ids (Contact.id c)
                then Contact.with_isArchived c false else c) prev.

(** [handleUnblockAll] *)
Definition handleUnblockAll (contacts prev : list Contact.t) : list Contact.t :=
  let ids := map Contact.id (blockedContacts contacts) in
  map (fun c => if includes ids (Contact.id c)
                then Contact.with_isBlocked c false else c) prev.

(** [handleRestoreAll] *)
Definition handleRestoreAll (contacts prev : list Contact.t) : list Contact.t :=
  let ids := map Contact.id (trashContacts contacts) in
  map (fun c => if includes ids (Contact.id c)
                then Contact.with_deletedAt c None else c) prev.

(** [handleEmptyTrash] *)
Definition handleEmptyTrash (contacts prev : list Contact.t) : list Contact.t :=
  let ids := map Contact.id (trashContacts contacts) in
  filter (fun c => negb (includes ids (Contact.id c))) prev.

(** A contact is not marked archived and blocked at once. *)
Definition exclusive (c : Contact.t) : bool :=
  negb (truthy_boolean (Contact.isArchived c)
        && truthy_boolean (Contact.isBlocked c)).

End Contacts.

(** ** A small contact list used to exercise the statements *)

Module Book.

Import Contacts.

(** A contact with only the required properties. *)
Definition plain (id firstName lastName : string) : Contact.t :=
  {| Contact.id := id;
     Contact.firstName := firstName;
     Contact.lastName := lastName;
     Contact.nickname := None;
     Contact.gender := None;
     Contact.phones := [];
     Contact.emails := [];
     Contact.website := None;
     Contact.address := None;
     Contact.company := None;
     Contact.jobTitle := None;
     Contact.notes := None;
     Contact.birthday := None;
     Contact.reminderSetting := None;
     Contact.isFavorite := false;
     Contact.profilePicture := None;
     Contact.group := None;
     Contact.tags := [];
     Contact.socialMediaLinks := None;
     Contact.createdAt := "2024-01-01T00:00:00.000Z";
     Contact.isArchived := None;
     Contact.isBlocked := None;
     Contact.isPrivate := None;
     Contact.deletedAt := None;
     Contact.activityLog := None;
     Contact.linkedContactIds := None |}.

Definition ann : Contact.t := plain "1" "Ann" "Lee".

Definition bob : Contact.t := plain "2" "Bob" "Ray".

(** In the trash. *)
Definition cy : Contact.t :=
  Contact.with_deletedAt (plain "3" "Cy" "Fox") (Some "2024-03-01T09:00:00.000Z").

(** Archived. *)
Definition di : Contact.t :=
  Contact.with_isArchived (plain "4" "Di" "Ito") true.

Definition contacts : list Contact.t := [ann; bob; cy; di].

(** Ann and Bob linked to each other. *)
Definition linked : list Contact.t :=
  [ Contact.with_linkedContactIds ann (Some ["2"]);
    Contact.with_linkedContactIds bob (Some ["1"]) ].

(** A clock that reads the same timestamp at every element. *)
Definition clock (i : nat) : string := "2024-05-01T10:00:00.000Z".

End Book.

(** * Properties *)

(** ** The array operations at the positions the hook uses *)

Section ArrayFacts.

Context {A : Type}.

(** A position inside the array is taken as it is by [slice]. *)
Lemma relative_in (len i : Z) :
  (0 <= i <= len)%Z -> JsArray.relative len i = i.
Proof.
  intros Hi. unfold JsArray.relative. destruct (Z.ltb_spec i 0); lia.
Qed.

Lemma length_snoc (init : list A) (x : A) :
  (JsArray.length (init ++ [x]) - 1 = Z.of_nat (List.length init))%Z.
Proof.
  unfold JsArray.length. rewrite length_app. simpl. lia.
Qed.

(** [a[a.length - 1]] of an array with a last element is that element. *)
Lemma get_last_snoc (init : list A) (x : A) :
  JsArray.get (init ++ [x]) (JsArray.length (init ++ [x]) - 1) = Some x.
Proof.
  rewrite length_snoc. unfold JsArray.get.
  destruct (Z.ltb_spec (Z.of_nat (List.length init)) 0) as [Hneg | _]; [lia |].
  rewrite Nat2Z.id, nth_error_app2 by lia.
  now rewrite Nat.sub_diag.
Qed.

(** [a.slice(0, a.length - 1)] drops exactly the last element. *)
Lemma slice_init_snoc (init : list A) (x : A) :
  JsArray.slice (init ++ [x]) 0 (JsArray.length (init ++ [x]) - 1) = init.
Proof.
  unfold JsArray.slice. rewrite length_snoc.
  rewrite !relative_in.
  1: { rewrite Z.sub_0_r, Nat2Z.id. simpl.
       rewrite firstn_app, Nat.sub_diag, firstn_all. simpl. apply app_nil_r. }
  all: unfold JsArray.length; rewrite length_app; simpl List.length; lia.
Qed.

(** On the empty array [a[a.length - 1]] reads index [-1]: [undefined]. *)
Lemma get_last_nil : JsArray.get (@nil A) (JsArray.length (@nil A) - 1) = None.
Proof. reflexivity. Qed.

Lemma get_head_cons (x : A) (rest : list A) :
  JsArray.get (x :: rest) 0 = Some x.
Proof. reflexivity. Qed.

(** [a.slice(1)] drops exactly the first element. *)
Lemma slice_tail_cons (x : A) (rest : list A) :
  JsArray.slice_from (x :: rest) 1 = rest.
Proof.
  unfold JsArray.slice_from, JsArray.slice.
  assert (Hlen : JsArray.length (x :: rest) = (Z.of_nat (List.length rest) + 1)%Z)
    by (unfold JsArray.length; simpl List.length; lia).
  rewrite Hlen, !relative_in by lia.
  replace (Z.of_nat (List.length rest) + 1 - 1)%Z
    with (Z.of_nat (List.length rest)) by lia.
  rewrite Nat2Z.id. change (Z.to_nat 1) with 1%nat. simpl.
  apply firstn_all.
Qed.

Lemma length_pos_iff (a : list A) :
  (JsArray.length a >? 0)%Z = true <-> a <> [].
Proof.
  unfold JsArray.length. destruct a as [| x a]; simpl.
  - split; [discriminate | congruence].
  - split; [discriminate | reflexivity].
Qed.

(** A non-empty list seen from its end. *)
Lemma snoc_view (a : list A) :
  a <> [] -> exists init x, a = init ++ [x].
Proof.
  intros Hne. destruct (exists_last Hne) as (init & x & ->). eauto.
Qed.

End ArrayFacts.

(** ** One call at a time *)

Section Steps.

Context {T : Type}.
Variable strict_eq : T -> T -> bool.

Lemma canUndo_iff (st : HistoryState T) :
  canUndo st = true <-> past st <> [].
Proof. apply length_pos_iff. Qed.

Lemma canRedo_iff (st : HistoryState T) :
  canRedo st = true <-> future st <> [].
Proof. apply length_pos_iff. Qed.

Lemma canUndo_snoc (init : list (HistoryEntry T)) prev cur fut :
  canUndo {| past := init ++ [prev]; present := cur; future := fut |} = true.
Proof. apply canUndo_iff. simpl. now destruct init. Qed.

Lemma perform_undo_snoc (init : list (HistoryEntry T)) prev cur fut :
  perform strict_eq {| past := init ++ [prev]; present := cur; future := fut |} CallUndo
  = Some {| past := init; present := prev; future := cur :: fut |}.
Proof.
  unfold perform, invoke, undo. rewrite canUndo_snoc.
  cbn [negb commit fold_left apply_action]. unfold undo_updater.
  cbn [past present future].
  now rewrite get_last_snoc, slice_init_snoc.
Qed.

Lemma perform_redo_cons (pst : list (HistoryEntry T)) cur next rest :
  perform strict_eq {| past := pst; present := cur; future := next :: rest |} CallRedo
  = Some {| past := pst ++ [cur]; present := next; future := rest |}.
Proof.
  unfold perform, invoke, redo.
  replace (canRedo _) with true by (symmetry; now apply canRedo_iff).
  cbn [negb commit fold_left apply_action]. unfold redo_updater.
  cbn [past present future].
  now rewrite get_head_cons, slice_tail_cons.
Qed.

Lemma perform_undo_nil (cur : HistoryEntry T) fut :
  perform strict_eq {| past := []; present := cur; future := fut |} CallUndo
  = Some {| past := []; present := cur; future := fut |}.
Proof. reflexivity. Qed.

Lemma perform_redo_nil (pst : list (HistoryEntry T)) cur :
  perform strict_eq {| past := pst; present := cur; future := [] |} CallRedo
  = Some {| past := pst; present := cur; future := [] |}.
Proof. reflexivity. Qed.

(** [set], [setInitial] and [clearHistory] always queue exactly one
    action; performing them is running it on the rendered state. *)
Lemma perform_set (st : HistoryState T) arg lbl tm :
  perform strict_eq st (CallSet arg lbl tm)
  = set_updater strict_eq arg
      (match lbl with Some l => l | None => set_default_label tm end) st.
Proof. reflexivity. Qed.

Lemma perform_setInitial (st : HistoryState T) v lbl :
  perform strict_eq st (CallSetInitial v lbl)
  = Some {| past := [];
            present := {| state := v;
                          label := match lbl with
                                   | Some l => l
                                   | None => "Initial State"
                                   end |};
            future := [] |}.
Proof. reflexivity. Qed.

Lemma perform_clearHistory (st : HistoryState T) :
  perform strict_eq st CallClearHistory
  = Some {| past := []; present := present st; future := [] |}.
Proof. reflexivity. Qed.

(** No single call on a rendered state leaves the hook without a state. *)
Lemma perform_total (st : HistoryState T) (c : Call T) :
  exists st', perform strict_eq st c = Some st'.
Proof.
  destruct st as [pst cur fut]. destruct c as [arg lbl tm | | | v lbl |].
  - rewrite perform_set. unfold set_updater.
    match goal with |- context [if ?b then _ else _] => destruct b end; eauto.
  - destruct pst as [| e pst'].
    + rewrite perform_undo_nil. eauto.
    + destruct (snoc_view (e :: pst')) as (init & x & ->); [discriminate |].
      rewrite perform_undo_snoc. eauto.
  - destruct fut as [| next rest].
    + rewrite perform_redo_nil. eauto.
    + rewrite perform_redo_cons. eauto.
  - rewrite perform_setInitial. eauto.
  - rewrite perform_clearHistory. eauto.
Qed.

Lemma run_total (calls : list (Call T)) :
  forall st, exists st', run strict_eq st calls = Some st'.
Proof.
  induction calls as [| c calls IH]; intros st; simpl.
  - eauto.
  - destruct (perform_total st c) as (st1 & ->). apply IH.
Qed.

Lemma run_app (xs ys : list (Call T)) :
  forall st,
    run strict_eq st (xs ++ ys)
    = match run strict_eq st xs with
      | Some st' => run strict_eq st' ys
      | None => None
      end.
Proof.
  induction xs as [| c xs IH]; intros st; simpl.
  - reflexivity.
  - destruct (perform strict_eq st c) as [st1 |]; [apply IH | reflexivity].
Qed.

End Steps.

(** ** The operations of the history manager *)

Section Operations.

Context {T : Type}.
Variable strict_eq : T -> T -> bool.

(** Shared by the inverse law: an effective undo is undone by redo, and an
    effective redo by undo. *)
Lemma run_undo_redo (st : HistoryState T) :
  past st <> [] -> run strict_eq st [CallUndo; CallRedo] = Some st.
Proof.
  destruct st as [pst cur fut]. simpl past. intros Hne.
  destruct (snoc_view pst Hne) as (init & prev & ->).
  cbn [run]. rewrite perform_undo_snoc, perform_redo_cons. reflexivity.
Qed.

Lemma run_redo_undo (st : HistoryState T) :
  future st <> [] -> run strict_eq st [CallRedo; CallUndo] = Some st.
Proof.
  destruct st as [pst cur [| next rest]]; simpl future; intros Hne.
  - congruence.
  - cbn [run]. rewrite perform_redo_cons, perform_undo_snoc. reflexivity.
Qed.

(** [n] undos that all take effect, then [n] redos. *)
Lemma run_undos_redos (n : nat) :
  forall st : HistoryState T,
    (n <= List.length (past st))%nat ->
    run strict_eq st (repeat CallUndo n ++ repeat CallRedo n) = Some st.
Proof.
  induction n as [| n IH]; intros st Hn.
  - reflexivity.
  - destruct st as [pst cur fut]. simpl past in Hn.
    assert (Hne : pst <> []) by (destruct pst; [simpl in Hn; lia | discriminate]).
    destruct (snoc_view pst Hne) as (init & prev & ->).
    rewrite length_app in Hn. simpl in Hn.
    replace (repeat CallUndo (S n) ++ repeat CallRedo (S n))
      with (@CallUndo T :: (repeat CallUndo n ++ repeat CallRedo n) ++ [CallRedo]).
    + cbn [run]. rewrite perform_undo_snoc, run_app.
      rewrite IH by (simpl; lia).
      cbn [run]. now rewrite perform_redo_cons.
    + cbn [repeat app]. f_equal. rewrite <- app_assoc. f_equal.
      symmetry. apply (repeat_cons n (@CallRedo T)).
Qed.

(** The pair undo, redo repeated [k] times. *)
Lemma run_alternating (k : nat) (st : HistoryState T) :
  past st <> [] ->
  run strict_eq st (List.concat (repeat [CallUndo; CallRedo] k)) = Some st.
Proof.
  intros Hne. induction k as [| k IH].
  - reflexivity.
  - cbn [repeat List.concat]. rewrite run_app, run_undo_redo by assumption.
    exact IH.
Qed.

(** Any sequence in which the undos take effect and are answered by redos
    amounts to the redos still owed when it starts. *)
Lemma run_answered (calls : list (Call T)) :
  forall (st : HistoryState T) (pending : nat),
    undos_answered (List.length (past st)) pending calls = true ->
    (pending <= List.length (future st))%nat ->
    run strict_eq st calls = run strict_eq st (repeat CallRedo pending).
Proof.
  induction calls as [| c calls IH]; intros [pst cur fut] pending Hok Howed;
    cbn [past future] in Hok, Howed.
  - cbn [undos_answered] in Hok. apply Nat.eqb_eq in Hok. now subst pending.
  - destruct c as [arg lbl tm | | | v lbl |]; cbn [undos_answered] in Hok;
      try discriminate.
    + (* undo *)
      destruct pst as [| e pst']; [discriminate |].
      destruct (snoc_view (e :: pst')) as (init & prev & Heq); [discriminate |].
      rewrite Heq in Hok |- *. rewrite length_app, Nat.add_1_r in Hok.
      cbn [run]. rewrite perform_undo_snoc.
      rewrite (IH _ (S pending));
        [| cbn [past]; exact Hok | cbn [future]; simpl; lia].
      cbn [repeat run]. now rewrite perform_redo_cons.
    + (* redo *)
      destruct pending as [| pending']; [discriminate |].
      destruct fut as [| next rest]; [simpl in Howed; lia |].
      cbn [repeat run]. rewrite perform_redo_cons.
      apply IH; cbn [past future].
      * now rewrite length_app, Nat.add_1_r.
      * simpl in Howed. lia.
Qed.

(** C1: for every state and every resolved new value that [===] tells
    apart from the present value, [set(updater, label)] appends the
    present entry to the end of [past], installs the new value with the
    label (the given one, or the default built from the clock) as
    [present], and empties [future]; afterwards [canUndo] is true and
    [canRedo] is false. *)
Theorem set_distinct_value_commits
  (st : HistoryState T) (updater : SetArg T) (lbl : option string)
  (localeTime : string) :
  strict_eq (resolve updater (state (present st))) (state (present st)) = false ->
  exists st',
    perform strict_eq st (CallSet updater lbl localeTime) = Some st'
    /\ past st' = past st ++ [present st]
    /\ present st'
       = {| state := resolve updater (state (present st));
            label := match lbl with
                     | Some l => l
                     | None => set_default_label localeTime
                     end |}
    /\ future st' = []
    /\ canUndo st' = true
    /\ canRedo st' = false.
Proof.
  intros Hdistinct. rewrite perform_set. unfold set_updater.
  rewrite Hdistinct. eexists. split; [reflexivity |].
  cbn [past present future]. repeat split.
  apply canUndo_iff. cbn [past]. now destruct (past st).
Qed.

(** C3: on a state with non-empty [past], [undo()] removes the last entry
    of [past], puts the present entry at the front of [future] and makes
    the removed entry the present one; on a state with non-empty
    [future], [redo()] removes the first entry of [future], appends the
    present entry to the end of [past] and makes the removed entry the
    present one. *)
Theorem undo_redo_move_one_entry (st : HistoryState T) :
  (past st <> [] ->
   exists init prev,
     past st = init ++ [prev]
     /\ perform strict_eq st CallUndo
        = Some {| past := init;
                  present := prev;
                  future := present st :: future st |})
  /\
  (future st <> [] ->
   exists next rest,
     future st = next :: rest
     /\ perform strict_eq st CallRedo
        = Some {| past := past st ++ [present st];
                  present := next;
                  future := rest |}).
Proof.
  destruct st as [pst cur fut]. cbn [past present future]. split.
  - intros Hne. destruct (snoc_view pst Hne) as (init & prev & ->).
    exists init, prev. split; [reflexivity | apply perform_undo_snoc].
  - intros Hne. destruct fut as [| next rest]; [congruence |].
    exists next, rest. split; [reflexivity | apply perform_redo_cons].
Qed.

(** C2: on a state with non-empty [past], [undo()] followed at once by
    [redo()] gives back the identical state, with the same entries in the
    same order; so does the pair repeated any number of times, so do [n]
    undos followed by [n] redos when [past] holds at least [n] entries,
    and so does every sequence of undos and redos in which each undo takes
    effect and is answered by a later redo; likewise an effective
    [redo()] is taken back by [undo()].  No other call intervenes. *)
Theorem redo_inverts_undo (st : HistoryState T) :
  (past st <> [] -> run strict_eq st [CallUndo; CallRedo] = Some st)
  /\ (past st <> [] ->
      forall k,
        run strict_eq st (List.concat (repeat [CallUndo; CallRedo] k)) = Some st)
  /\ (forall n, (n <= List.length (past st))%nat ->
      run strict_eq st (repeat CallUndo n ++ repeat CallRedo n) = Some st)
  /\ (forall calls, undos_answered (List.length (past st)) 0 calls = true ->
      run strict_eq st calls = Some st)
  /\ (future st <> [] -> run strict_eq st [CallRedo; CallUndo] = Some st).
Proof.
  split; [apply run_undo_redo |].
  split; [intros Hne k; now apply run_alternating |].
  split; [intros n Hn; now apply run_undos_redos |].
  split; [| apply run_redo_undo].
  intros calls Hok. rewrite (run_answered calls st 0%nat Hok); [reflexivity | lia].
Qed.

(** C5: whatever the state, [setInitial(x, label)] replaces it by an empty
    [past], the entry of [x] with the label (["Initial State"] when
    omitted) as [present] and an empty [future]; afterwards [canUndo] and
    [canRedo] are both false. *)
Theorem setInitial_resets
  (st : HistoryState T) (x : T) (lbl : option string) :
  exists st',
    perform strict_eq st (CallSetInitial x lbl) = Some st'
    /\ st' = {| past := [];
                present := {| state := x;
                              label := match lbl with
                                       | Some l => l
                                       | None => "Initial State"
                                       end |};
                future := [] |}
    /\ canUndo st' = false
    /\ canRedo st' = false.
Proof.
  rewrite perform_setInitial. eexists. split; [reflexivity |].
  repeat split.
Qed.

(** C6: [undo()] on a state with empty [past] and [redo()] on a state
    with empty [future] queue nothing, raise nothing and leave the whole
    state as it was. *)
Theorem undo_redo_noop_at_ends (st : HistoryState T) :
  (past st = [] -> undo st = [] /\ perform strict_eq st CallUndo = Some st)
  /\ (future st = [] -> redo st = [] /\ perform strict_eq st CallRedo = Some st).
Proof.
  destruct st as [pst cur fut]. cbn [past future]. split; intros ->.
  - split; reflexivity.
  - split; reflexivity.
Qed.

(** C7: [clearHistory()] empties [past] and [future] and leaves the
    present entry, its value and its label, exactly as it was. *)
Theorem clearHistory_keeps_present (st : HistoryState T) :
  exists st',
    perform strict_eq st CallClearHistory = Some st'
    /\ past st' = []
    /\ future st' = []
    /\ present st' = present st
    /\ state (present st') = state (present st)
    /\ label (present st') = label (present st).
Proof.
  rewrite perform_clearHistory. eexists. split; [reflexivity |].
  repeat split.
Qed.

(** C8: every sequence of [set], [undo], [redo], [setInitial] and
    [clearHistory] calls made on a freshly constructed hook ends in a
    state, and on that state the values the hook returns agree with it:
    [canUndo] holds exactly when [past] is non-empty, [canRedo] exactly
    when [future] is non-empty, [history] is [past] followed by
    [present] (so it is never empty), [currentLabel] is the label of
    [present] and [state] its value. *)
Theorem queries_consistent_on_reachable
  (initialPresent : T) (initialLabel : option string)
  (calls : list (Call T)) :
  exists st,
    run strict_eq (initialState initialPresent initialLabel) calls = Some st
    /\ (hook_canUndo (useHistoryState st) = true <-> past st <> [])
    /\ (hook_canRedo (useHistoryState st) = true <-> future st <> [])
    /\ hook_history (useHistoryState st) = past st ++ [present st]
    /\ hook_history (useHistoryState st) <> []
    /\ hook_currentLabel (useHistoryState st) = label (present st)
    /\ hook_state (useHistoryState st) = state (present st).
Proof.
  destruct (run_total strict_eq calls (initialState initialPresent initialLabel))
    as (st & Hrun).
  exists st. split; [exact Hrun |].
  cbn [useHistoryState hook_canUndo hook_canRedo hook_history
       hook_currentLabel hook_state].
  split; [apply canUndo_iff |].
  split; [apply canRedo_iff |].
  split; [reflexivity |].
  split; [now destruct (past st) | split; reflexivity].
Qed.

(** C10: [undo()] and [redo()] each keep the line of entries
    [past ++ [present] ++ future] exactly as it was, the same entries
    with the same values and labels in the same order; only the position
    of [present] in it moves, by one step when the call takes effect. *)
Theorem undo_redo_preserve_timeline (st : HistoryState T) :
  (exists st',
      perform strict_eq st CallUndo = Some st'
      /\ timeline st' = timeline st
      /\ List.length (past st') = Nat.pred (List.length (past st)))
  /\
  (exists st',
      perform strict_eq st CallRedo = Some st'
      /\ timeline st' = timeline st
      /\ List.length (future st') = Nat.pred (List.length (future st))).
Proof.
  destruct st as [pst cur fut]. split.
  - destruct pst as [| e pst'].
    + rewrite perform_undo_nil. eexists. repeat split.
    + destruct (snoc_view (e :: pst')) as (init & prev & Heq); [discriminate |].
      rewrite Heq, perform_undo_snoc. eexists. split; [reflexivity |].
      unfold timeline. cbn [past present future]. split.
      * now rewrite <- app_assoc.
      * rewrite length_app. simpl. lia.
  - destruct fut as [| next rest].
    + rewrite perform_redo_nil. eexists. repeat split.
    + rewrite perform_redo_cons. eexists. split; [reflexivity |].
      unfold timeline. cbn [past present future]. split.
      * now rewrite <- app_assoc.
      * reflexivity.
Qed.

End Operations.

(** ** Identity, not structure, decides the no-op *)

Section Identity.

Import Js.

(** Whatever [===] tells apart from the present value is committed as a
    new entry, so the state changes. *)
Lemma set_distinct_changes_state {T : Type} (strict_eq : T -> T -> bool)
  (st : HistoryState T) (updater : SetArg T) (lbl : option string)
  (localeTime : string) :
  strict_eq (resolve updater (state (present st))) (state (present st)) = false ->
  exists st',
    perform strict_eq st (CallSet updater lbl localeTime) = Some st'
    /\ st' <> st
    /\ past st' = past st ++ [present st]
    /\ state (present st') = resolve updater (state (present st))
    /\ future st' = [].
Proof.
  intros Hdistinct. rewrite perform_set. unfold set_updater.
  rewrite Hdistinct. eexists. split; [reflexivity |].
  cbn [past present future state]. repeat split.
  intros Heq. apply (f_equal (fun s => List.length (past s))) in Heq.
  cbn [past] in Heq. rewrite length_app in Heq. simpl in Heq. lia.
Qed.

(** C4: a [set] whose resolved value is [===] to the present value is a
    no-op: the state, with its [past], [present] and [future], stays the
    same, so no entry is created.  The test is identity: a value
    that is deeply equal to the present one but a different reference is
    committed as a new entry. *)
Theorem set_noop_exactly_on_identity :
  (forall (T : Type) (strict_eq : T -> T -> bool) (st : HistoryState T)
          (updater : SetArg T) (lbl : option string) (localeTime : string),
      strict_eq (resolve updater (state (present st))) (state (present st)) = true ->
      perform strict_eq st (CallSet updater lbl localeTime) = Some st)
  /\
  (forall (h : Heap) (depth : nat) (st : HistoryState JsValue)
          (v : JsValue) (lbl : option string) (localeTime : string),
      deep_equal depth h v (state (present st)) = true ->
      Js.strict_eq v (state (present st)) = false ->
      exists st',
        perform Js.strict_eq st (CallSet (Value v) lbl localeTime) = Some st'
        /\ st' <> st
        /\ past st' = past st ++ [present st]
        /\ state (present st') = v
        /\ future st' = []).
Proof.
  split.
  - intros T strict_eq st updater lbl localeTime Hsame.
    rewrite perform_set. unfold set_updater. now rewrite Hsame.
  - intros h depth st v lbl localeTime _ Hdistinct.
    now apply (set_distinct_changes_state Js.strict_eq st (Value v)).
Qed.

(** C9: the worked example.  A hook constructed with [0]; then
    [set(1, "inc")], [set(2, "inc")], [undo()], [undo()], [redo()],
    [set(5, "jump")] pass through exactly the six states listed, the last
    one having dropped the entry of [2] from [future].  The labels are
    all given, so the clock readings [t1], [t2], [t3] play no part. *)
Theorem worked_example_trace (t1 t2 t3 : string) :
  trace Js.strict_eq (initialState (JsNumber 0) None)
    [ CallSet (Value (JsNumber 1)) (Some "inc") t1;
      CallSet (Value (JsNumber 2)) (Some "inc") t2;
      CallUndo;
      CallUndo;
      CallRedo;
      CallSet (Value (JsNumber 5)) (Some "jump") t3 ]
  = [ Some {| past := [num_entry 0 "Initial State"];
              present := num_entry 1 "inc";
              future := [] |};
      Some {| past := [num_entry 0 "Initial State"; num_entry 1 "inc"];
              present := num_entry 2 "inc";
              future := [] |};
      Some {| past := [num_entry 0 "Initial State"];
              present := num_entry 1 "inc";
              future := [num_entry 2 "inc"] |};
      Some {| past := [];
              present := num_entry 0 "Initial State";
              future := [num_entry 1 "inc"; num_entry 2 "inc"] |};
      Some {| past := [num_entry 0 "Initial State"];
              present := num_entry 1 "inc";
              future := [num_entry 2 "inc"] |};
      Some {| past := [num_entry 0 "Initial State"; num_entry 1 "inc"];
              present := num_entry 5 "jump";
              future := [] |} ].
Proof. reflexivity. Qed.

End Identity.

(** ** The statements at concrete states *)

Section Instances.

Import Js Samples.

Lemma set_distinct_value_commits_at_middle :
  Js.strict_eq (resolve (Value (JsNumber 5)) (state (present middle)))
    (state (present middle)) = false
  /\ exists st',
      perform Js.strict_eq middle (CallSet (Value (JsNumber 5)) None "9:41:07 AM")
      = Some st'
      /\ past st' = past middle ++ [present middle]
      /\ present st'
         = {| state := resolve (Value (JsNumber 5)) (state (present middle));
              label := set_default_label "9:41:07 AM" |}
      /\ future st' = []
      /\ canUndo st' = true
      /\ canRedo st' = false.
Proof.
  split; [reflexivity |].
  apply (set_distinct_value_commits Js.strict_eq middle
           (Value (JsNumber 5)) None "9:41:07 AM").
  reflexivity.
Defined.

Lemma redo_inverts_undo_at_deep :
  past deep <> []
  /\ run Js.strict_eq deep [CallUndo; CallRedo] = Some deep
  /\ run Js.strict_eq deep (List.concat (repeat [CallUndo; CallRedo] 3)) = Some deep
  /\ (2 <= List.length (past deep))%nat
  /\ run Js.strict_eq deep (repeat CallUndo 2 ++ repeat CallRedo 2) = Some deep
  /\ @undos_answered JsValue (List.length (past deep)) 0
       [CallUndo; CallUndo; CallRedo; CallUndo; CallRedo; CallRedo] = true
  /\ run Js.strict_eq deep
       [CallUndo; CallUndo; CallRedo; CallUndo; CallRedo; CallRedo] = Some deep
  /\ future deep <> []
  /\ run Js.strict_eq deep [CallRedo; CallUndo] = Some deep.
Proof.
  assert (Hpast : past deep <> []) by discriminate.
  assert (Hfuture : future deep <> []) by discriminate.
  assert (Hdepth : (2 <= List.length (past deep))%nat) by (simpl; lia).
  assert (Hmixed : undos_answered (List.length (past deep)) 0
                     [@CallUndo JsValue; CallUndo; CallRedo; CallUndo; CallRedo; CallRedo]
                   = true) by reflexivity.
  destruct (redo_inverts_undo Js.strict_eq deep)
    as (Hpair & Hmany & Hnested & Hanswered & Hback).
  exact (conj Hpast
          (conj (Hpair Hpast)
             (conj (Hmany Hpast 3%nat)
                (conj Hdepth
                   (conj (Hnested 2%nat Hdepth)
                      (conj Hmixed
                         (conj (Hanswered _ Hmixed)
                            (conj Hfuture (Hback Hfuture))))))))).
Defined.

Lemma undo_redo_move_one_entry_at_deep :
  past deep <> []
  /\ (exists init prev,
         past deep = init ++ [prev]
         /\ perform Js.strict_eq deep CallUndo
            = Some {| past := init;
                      present := prev;
                      future := present deep :: future deep |})
  /\ future deep <> []
  /\ (exists next rest,
         future deep = next :: rest
         /\ perform Js.strict_eq deep CallRedo
            = Some {| past := past deep ++ [present deep];
                      present := next;
                      future := rest |}).
Proof.
  assert (Hpast : past deep <> []) by discriminate.
  assert (Hfuture : future deep <> []) by discriminate.
  destruct (undo_redo_move_one_entry Js.strict_eq deep) as (Hundo & Hredo).
  exact (conj Hpast (conj (Hundo Hpast) (conj Hfuture (Hredo Hfuture)))).
Defined.

Lemma undo_redo_noop_at_ends_on_fresh :
  past fresh = []
  /\ undo fresh = []
  /\ perform Js.strict_eq fresh CallUndo = Some fresh
  /\ future fresh = []
  /\ redo fresh = []
  /\ perform Js.strict_eq fresh CallRedo = Some fresh.
Proof.
  destruct (undo_redo_noop_at_ends Js.strict_eq fresh) as (Hundo & Hredo).
  destruct (Hundo eq_refl) as (Hq1 & Hs1).
  destruct (Hredo eq_refl) as (Hq2 & Hs2).
  exact (conj eq_refl (conj Hq1 (conj Hs1 (conj eq_refl (conj Hq2 Hs2))))).
Defined.

Lemma set_noop_exactly_on_identity_at_twins :
  (Js.strict_eq (resolve (Updater (fun contacts => contacts))
                   (state (present holding_first)))
     (state (present holding_first)) = true
   /\ perform Js.strict_eq holding_first
        (CallSet (Updater (fun contacts => contacts)) (Some "Edited") "9:41:07 AM")
      = Some holding_first)
  /\
  (deep_equal 1 twin_heap (JsObject 1) (state (present holding_first)) = true
   /\ Js.strict_eq (JsObject 1) (state (present holding_first)) = false
   /\ exists st',
       perform Js.strict_eq holding_first
         (CallSet (Value (JsObject 1)) (Some "Edited") "9:41:07 AM")
       = Some st'
       /\ st' <> holding_first
       /\ past st' = past holding_first ++ [present holding_first]
       /\ state (present st') = JsObject 1
       /\ future st' = []).
Proof.
  destruct set_noop_exactly_on_identity as (Hsame & Hdistinct).
  split.
  - split; [reflexivity |].
    apply (Hsame JsValue Js.strict_eq holding_first). reflexivity.
  - split; [reflexivity |]. split; [reflexivity |].
    apply (Hdistinct twin_heap 1%nat holding_first (JsObject 1)); reflexivity.
Defined.

(** Beyond the depth of [past] the surplus undos are no-ops while the
    surplus redos are not: two undos and two redos on a state with one
    entry behind and one ahead end one step further on. *)
Example undos_beyond_depth_overshoot :
  run Js.strict_eq middle [CallUndo; CallUndo; CallRedo; CallRedo]
  = Some {| past := [num_entry 0 "Initial State"; num_entry 1 "inc"];
            present := num_entry 2 "inc";
            future := [] |}.
Proof. reflexivity. Qed.

(** [clearHistory()] between an undo and its redo drops the entry the redo
    would bring back: the redo is then a no-op and the state is not
    restored. *)
Example clearHistory_between_undo_and_redo :
  run Js.strict_eq middle [CallUndo; CallClearHistory; CallRedo]
  = Some {| past := [];
            present := num_entry 0 "Initial State";
            future := [] |}.
Proof. reflexivity. Qed.

(** Two [undo()] calls made from one event handler share the [canUndo] of
    one render: with a single entry behind, the second updater reads
    [past[-1]] and the state it builds has no present entry. *)
Example batched_double_undo_malformed :
  perform_batch Js.strict_eq middle [CallUndo; CallUndo] = None
  /\ run Js.strict_eq middle [CallUndo; CallUndo]
     = Some {| past := [];
               present := num_entry 0 "Initial State";
               future := [num_entry 1 "inc"; num_entry 2 "inc"] |}.
Proof. split; reflexivity. Qed.

(** [NaN === NaN] is false, so setting [NaN] over [NaN] is committed. *)
Example set_nan_over_nan_commits :
  perform Js.strict_eq
    {| past := []; present := {| state := JsNaN; label := "Initial State" |};
       future := [] |}
    (CallSet (Value JsNaN) (Some "again") "9:41:07 AM")
  = Some {| past := [{| state := JsNaN; label := "Initial State" |}];
            present := {| state := JsNaN; label := "again" |};
            future := [] |}.
Proof. reflexivity. Qed.

End Instances.

(** * Further properties of the hook *)

Section Composition.

Context {T : Type}.
Variable strict_eq : T -> T -> bool.

Lemma undo_updater_snoc (init : list (HistoryEntry T)) prev cur fut :
  undo_updater {| past := init ++ [prev]; present := cur; future := fut |}
  = Some {| past := init; present := prev; future := cur :: fut |}.
Proof.
  unfold undo_updater. cbn [past present future].
  now rewrite get_last_snoc, slice_init_snoc.
Qed.

Lemma undo_updater_nil (cur : HistoryEntry T) fut :
  undo_updater {| past := []; present := cur; future := fut |} = None.
Proof. reflexivity. Qed.

Lemma invoke_undo_nonempty (st : HistoryState T) :
  past st <> [] -> invoke strict_eq st CallUndo = [Update undo_updater].
Proof.
  intros Hne. cbn [invoke]. unfold undo.
  now replace (canUndo st) with true by (symmetry; now apply canUndo_iff).
Qed.

Lemma invoke_undo_empty (st : HistoryState T) :
  past st = [] -> invoke strict_eq st CallUndo = [].
Proof.
  intros Hnil. cbn [invoke]. unfold undo, canUndo. now rewrite Hnil.
Qed.

Lemma invoke_redo_empty (st : HistoryState T) :
  future st = [] -> invoke strict_eq st CallRedo = [].
Proof.
  intros Hnil. cbn [invoke]. unfold redo, canRedo. now rewrite Hnil.
Qed.

(** Once the state object is malformed, updaters leave it so. *)
Lemma updates_keep_malformed (n : nat) (f : HistoryState T -> option (HistoryState T)) :
  fold_left apply_action (repeat (Update f) n) None = None.
Proof. induction n as [| n IH]; [reflexivity | exact IH]. Qed.

(** Each of the three unguarded callbacks queues the same action whatever
    render it comes from. *)
Lemma invoke_unguarded (c : Call T) (st st' : HistoryState T) :
  unguarded c = true -> invoke strict_eq st c = invoke strict_eq st' c.
Proof. destruct c; [reflexivity | discriminate | discriminate | reflexivity | reflexivity]. Qed.

Lemma queue_unguarded (calls : list (Call T)) :
  forall st0 st : HistoryState T,
    forallb unguarded calls = true ->
    fold_left apply_action (flat_map (invoke strict_eq st0) calls) (Some st)
    = run strict_eq st calls.
Proof.
  induction calls as [| c calls IH]; intros st0 st Hall.
  - reflexivity.
  - cbn [forallb] in Hall. apply andb_prop in Hall as (Hc & Hall).
    cbn [flat_map run]. rewrite fold_left_app.
    rewrite (invoke_unguarded c st0 st Hc).
    change (fold_left apply_action (invoke strict_eq st c) (Some st))
      with (perform strict_eq st c).
    destruct (perform_total strict_eq st c) as (st1 & ->).
    now apply IH.
Qed.

Lemma queue_undos_within (n : nat) :
  forall st : HistoryState T,
    (n <= List.length (past st))%nat ->
    fold_left apply_action (repeat (Update undo_updater) n) (Some st)
    = run strict_eq st (repeat CallUndo n).
Proof.
  induction n as [| n IH]; intros [pst cur fut] Hn; cbn [past] in Hn.
  - reflexivity.
  - destruct pst as [| e pst']; [simpl in Hn; lia |].
    destruct (snoc_view (e :: pst')) as (init & prev & Heq); [discriminate |].
    rewrite Heq in Hn |- *. rewrite length_app in Hn. simpl in Hn.
    cbn [repeat fold_left apply_action run].
    rewrite undo_updater_snoc, perform_undo_snoc.
    apply IH. cbn [past]. lia.
Qed.

Lemma queue_undos_beyond (n : nat) :
  forall st : HistoryState T,
    (List.length (past st) < n)%nat ->
    fold_left apply_action (repeat (Update undo_updater) n) (Some st) = None.
Proof.
  induction n as [| n IH]; intros [pst cur fut] Hn; cbn [past] in Hn.
  - lia.
  - cbn [repeat fold_left apply_action].
    destruct pst as [| e pst'].
    + rewrite undo_updater_nil. apply updates_keep_malformed.
    + destruct (snoc_view (e :: pst')) as (init & prev & Heq); [discriminate |].
      rewrite Heq in Hn |- *. rewrite length_app in Hn. simpl in Hn.
      rewrite undo_updater_snoc. apply IH. cbn [past]. lia.
Qed.

Lemma flat_map_repeat_single {A B : Type} (f : A -> list B) (a : A) (b : B) (n : nat) :
  f a = [b] -> flat_map f (repeat a n) = repeat b n.
Proof.
  intros Hf. induction n as [| n IH]; [reflexivity |].
  cbn [repeat flat_map]. now rewrite Hf, IH.
Qed.

End Composition.

Section HookLaws.

Context {T : Type}.
Variable strict_eq : T -> T -> bool.

Lemma perform_undo_timeline (st : HistoryState T) :
  exists st',
    perform strict_eq st CallUndo = Some st'
    /\ timeline st' = timeline st
    /\ List.length (past st') = (List.length (past st) - 1)%nat.
Proof.
  destruct st as [pst cur fut]. destruct pst as [| e pst'].
  - rewrite perform_undo_nil. eexists. repeat split.
  - destruct (snoc_view (e :: pst')) as (init & prev & Heq); [discriminate |].
    rewrite Heq, perform_undo_snoc. eexists. split; [reflexivity |].
    unfold timeline. cbn [past present future]. split.
    + now rewrite <- app_assoc.
    + rewrite length_app. simpl. lia.
Qed.

Lemma perform_redo_timeline (st : HistoryState T) :
  exists st',
    perform strict_eq st CallRedo = Some st'
    /\ timeline st' = timeline st
    /\ List.length (future st') = (List.length (future st) - 1)%nat.
Proof.
  destruct st as [pst cur fut]. destruct fut as [| next rest].
  - rewrite perform_redo_nil. eexists. repeat split.
  - rewrite perform_redo_cons. eexists. split; [reflexivity |].
    unfold timeline. cbn [past present future]. split.
    + now rewrite <- app_assoc.
    + simpl. lia.
Qed.

(** A state is its line of entries together with the place of [present]
    in it. *)
Lemma state_from_timeline (st1 st2 : HistoryState T) :
  timeline st1 = timeline st2 ->
  List.length (past st1) = List.length (past st2) ->
  st1 = st2.
Proof.
  destruct st1 as [p1 c1 f1], st2 as [p2 c2 f2]. unfold timeline.
  cbn [past present future]. revert p2.
  induction p1 as [| e p1 IH]; intros [| e2 p2] Hline Hlen;
    simpl in Hlen; try discriminate.
  - simpl in Hline. now injection Hline as -> ->.
  - simpl in Hline. injection Hline as -> Hline.
    injection Hlen as Hlen. specialize (IH p2 Hline Hlen).
    now injection IH as -> -> ->.
Qed.

(** X1: [undo()] right after a [set] that committed brings back the [past]
    and the present entry the hook had before the [set]; the committed
    entry waits alone in [future] (what [future] held before is gone), and
    a [redo()] installs it again exactly as the [set] had. *)
Theorem undo_reverts_committed_set
  (st : HistoryState T) (updater : SetArg T) (lbl : option string)
  (localeTime : string) :
  strict_eq (resolve updater (state (present st))) (state (present st)) = false ->
  run strict_eq st [CallSet updater lbl localeTime; CallUndo]
  = Some {| past := past st;
            present := present st;
            future := [ {| state := resolve updater (state (present st));
                           label := match lbl with
                                    | Some l => l
                                    | None => set_default_label localeTime
                                    end |} ] |}
  /\ run strict_eq st [CallSet updater lbl localeTime; CallUndo; CallRedo]
     = perform strict_eq st (CallSet updater lbl localeTime).
Proof.
  intros Hdistinct. cbn [run]. rewrite perform_set. unfold set_updater.
  rewrite Hdistinct. rewrite perform_undo_snoc. split; [reflexivity |].
  now rewrite perform_redo_cons.
Qed.

(** X2: [set], [setInitial] and [clearHistory] calls made together from one
    render take effect one after the other, each on the result of the one
    before, exactly as if a render had separated them. *)
Theorem batched_unguarded_calls_run_in_order
  (st : HistoryState T) (calls : list (Call T)) :
  forallb unguarded calls = true ->
  perform_batch strict_eq st calls = run strict_eq st calls.
Proof.
  intros Hall. unfold perform_batch, commit. now apply queue_unguarded.
Qed.

(** X3: [n] [undo()] calls made together from one render: when [past] is
    empty they do nothing; when [past] holds at least [n] entries they act
    as [n] separate undos; when [past] is non-empty but holds fewer than
    [n] entries, the surplus updater reads [past[-1]] and the resulting
    state has no present entry. *)
Theorem batched_undos (st : HistoryState T) (n : nat) :
  (past st = [] -> perform_batch strict_eq st (repeat CallUndo n) = Some st)
  /\ ((n <= List.length (past st))%nat ->
      perform_batch strict_eq st (repeat CallUndo n)
      = run strict_eq st (repeat CallUndo n))
  /\ (past st <> [] -> (List.length (past st) < n)%nat ->
      perform_batch strict_eq st (repeat CallUndo n) = None).
Proof.
  unfold perform_batch, commit. split; [| split].
  - intros Hnil.
    assert (Hq : flat_map (invoke strict_eq st) (repeat CallUndo n) = []).
    { induction n as [| n IH]; [reflexivity |].
      cbn [repeat flat_map]. now rewrite (invoke_undo_empty strict_eq st Hnil), IH. }
    now rewrite Hq.
  - intros Hn. destruct (past st) as [| e pst'] eqn:Hpast.
    + simpl in Hn. assert (n = 0)%nat as -> by lia. reflexivity.
    + rewrite (flat_map_repeat_single _ _ (Update undo_updater)).
      * apply queue_undos_within. rewrite Hpast. exact Hn.
      * apply invoke_undo_nonempty. now rewrite Hpast.
  - intros Hne Hn.
    rewrite (flat_map_repeat_single _ _ (Update undo_updater)).
    + now apply queue_undos_beyond.
    + now apply invoke_undo_nonempty.
Qed.

(** X4: the guards of [undo] and [redo] look at the render, not at the
    queue: from a render with empty [past] every [undo()] of a batch is
    dropped, also after a [set] of the same batch, and from a render with
    empty [future] every [redo()] is. *)
Theorem batched_guards_read_the_render
  (st : HistoryState T) (calls : list (Call T)) :
  (past st = [] ->
   perform_batch strict_eq st calls
   = perform_batch strict_eq st (filter (fun c => negb (is_undo c)) calls))
  /\ (future st = [] ->
      perform_batch strict_eq st calls
      = perform_batch strict_eq st (filter (fun c => negb (is_redo c)) calls)).
Proof.
  unfold perform_batch. split; intros Hnil; f_equal.
  - induction calls as [| c calls IH]; [reflexivity |].
    cbn [flat_map filter]. destruct c; cbn [is_undo negb flat_map];
      rewrite IH; try reflexivity.
    now rewrite (invoke_undo_empty strict_eq st Hnil).
  - induction calls as [| c calls IH]; [reflexivity |].
    cbn [flat_map filter]. destruct c; cbn [is_redo negb flat_map];
      rewrite IH; try reflexivity.
    now rewrite (invoke_redo_empty strict_eq st Hnil).
Qed.

(** X5: [n] successive [undo()] calls move the present entry [n] places
    back along the line of entries and stop at the oldest one; [n]
    successive [redo()] calls move it [n] places forward and stop at the
    newest one.  The line itself is untouched, and a state is determined
    by its line and the length of its [past]. *)
Theorem repeated_undo_redo_saturate (st : HistoryState T) (n : nat) :
  (exists st',
      run strict_eq st (repeat CallUndo n) = Some st'
      /\ timeline st' = timeline st
      /\ List.length (past st') = (List.length (past st) - n)%nat)
  /\
  (exists st',
      run strict_eq st (repeat CallRedo n) = Some st'
      /\ timeline st' = timeline st
      /\ List.length (future st') = (List.length (future st) - n)%nat).
Proof.
  split; revert st; induction n as [| n IH]; intros st.
  - exists st. repeat split. cbn [past]. lia.
  - destruct (perform_undo_timeline st) as (st1 & Hstep & Hline & Hlen).
    destruct (IH st1) as (st' & Hrun & Hline' & Hlen').
    exists st'. cbn [repeat run]. rewrite Hstep. split; [exact Hrun |].
    split; [congruence | lia].
  - exists st. repeat split. cbn [future]. lia.
  - destruct (perform_redo_timeline st) as (st1 & Hstep & Hline & Hlen).
    destruct (IH st1) as (st' & Hrun & Hline' & Hlen').
    exists st'. cbn [repeat run]. rewrite Hstep. split; [exact Hrun |].
    split; [congruence | lia].
Qed.

(** X6: whatever the order in which [undo()] and [redo()] are called, and
    however many times, no entry is lost, duplicated, reordered or
    relabelled: the line of entries stays the same. *)
Theorem undo_redo_sequences_preserve_timeline
  (calls : list (Call T)) (st : HistoryState T) :
  forallb (fun c => is_undo c || is_redo c) calls = true ->
  exists st',
    run strict_eq st calls = Some st' /\ timeline st' = timeline st.
Proof.
  revert st. induction calls as [| c calls IH]; intros st Hall.
  - exists st. split; reflexivity.
  - cbn [forallb] in Hall. apply andb_prop in Hall as (Hc & Hall).
    destruct c; try discriminate.
    + destruct (perform_undo_timeline st) as (st1 & Hstep & Hline & _).
      destruct (IH st1 Hall) as (st' & Hrun & Hline').
      exists st'. cbn [run]. rewrite Hstep. split; [exact Hrun | congruence].
    + destruct (perform_redo_timeline st) as (st1 & Hstep & Hline & _).
      destruct (IH st1 Hall) as (st' & Hrun & Hline').
      exists st'. cbn [run]. rewrite Hstep. split; [exact Hrun | congruence].
Qed.

(** X7: the number of entries the hook holds grows by at most one per
    [set] call and by nothing else: after any sequence of calls it is at
    most what it was plus the number of [set] calls in the sequence. *)
Theorem entries_grow_only_by_set
  (calls : list (Call T)) (st : HistoryState T) :
  exists st',
    run strict_eq st calls = Some st'
    /\ (List.length (timeline st')
        <= List.length (timeline st) + List.length (filter is_set calls))%nat.
Proof.
  revert st. induction calls as [| c calls IH]; intros st.
  - exists st. split; [reflexivity | lia].
  - assert (Hstep : exists st1,
               perform strict_eq st c = Some st1
               /\ (List.length (timeline st1)
                   <= List.length (timeline st)
                      + (if is_set c then 1 else 0))%nat).
    { destruct c as [arg lbl tm | | | v lbl |]; cbn [is_set].
      - rewrite perform_set. unfold set_updater.
        match goal with |- context [if ?b then _ else _] => destruct b end;
          eexists; (split; [reflexivity |]); unfold timeline;
          cbn [past present future]; rewrite ?length_app; simpl; lia.
      - destruct (perform_undo_timeline st) as (st1 & Hs & Hline & _).
        exists st1. split; [exact Hs | rewrite Hline; lia].
      - destruct (perform_redo_timeline st) as (st1 & Hs & Hline & _).
        exists st1. split; [exact Hs | rewrite Hline; lia].
      - rewrite perform_setInitial. eexists. split; [reflexivity |].
        unfold timeline. cbn [past present future]. rewrite ?length_app. simpl. lia.
      - rewrite perform_clearHistory. eexists. split; [reflexivity |].
        unfold timeline. cbn [past present future]. rewrite ?length_app. simpl. lia. }
    destruct Hstep as (st1 & Hs & Hbound).
    destruct (IH st1) as (st' & Hrun & Hbound').
    exists st'. cbn [run]. rewrite Hs. split; [exact Hrun |].
    cbn [filter]. destruct (is_set c); simpl List.length; lia.
Qed.

End HookLaws.

(** * The contact list kept in the hook *)

Section ContactList.

Import Contacts.

Lemma truthy_nonempty (s : string) : s <> "" -> truthy_string (Some s) = true.
Proof.
  intros Hs. unfold truthy_string. apply negb_true_iff. now apply String.eqb_neq.
Qed.

Lemma includes_In (ids : list string) (x : string) :
  includes ids x = true <-> In x ids.
Proof.
  unfold includes. rewrite existsb_exists. split.
  - intros (y & Hin & Heq). apply String.eqb_eq in Heq. now subst.
  - intros Hin. exists x. split; [exact Hin | apply String.eqb_refl].
Qed.

Lemma includes_ids_of (cs : list Contact.t) (c : Contact.t) :
  In c cs -> includes (map Contact.id cs) (Contact.id c) = true.
Proof. intros Hin. apply includes_In. now apply in_map. Qed.

Lemma map_from_ids (f : nat -> Contact.t -> Contact.t) :
  (forall i c, Contact.id (f i c) = Contact.id c) ->
  forall (prev : list Contact.t) (from : nat),
    map Contact.id (map_from from f prev) = map Contact.id prev.
Proof.
  intros Hf prev. induction prev as [| c prev IH]; intros from.
  - reflexivity.
  - cbn [map_from map]. now rewrite Hf, IH.
Qed.

Lemma map_ids (f : Contact.t -> Contact.t) :
  (forall c, Contact.id (f c) = Contact.id c) ->
  forall prev : list Contact.t,
    map Contact.id (map f prev) = map Contact.id prev.
Proof.
  intros Hf prev. rewrite map_map. apply map_ext. exact Hf.
Qed.

(** X8: the four views of the contact list cover it; a contact is counted
    twice exactly when it is marked both archived and blocked and is not
    in the trash.  So the counts of the summary add up to the number of
    contacts plus the number of such doubly marked ones. *)
Theorem view_counts_add_up (contacts : list Contact.t) :
  (List.length (activeContacts contacts)
   + List.length (archivedContacts contacts)
   + List.length (blockedContacts contacts)
   + List.length (trashContacts contacts)
   = List.length contacts
     + List.length
         (filter (fun c => negb (exclusive c)
                           && negb (truthy_string (Contact.deletedAt c)))
            contacts))%nat.
Proof.
  unfold activeContacts, archivedContacts, blockedContacts, trashContacts,
    exclusive.
  induction contacts as [| c contacts IH]; [reflexivity |].
  cbn [filter].
  destruct (truthy_boolean (Contact.isArchived c)),
           (truthy_boolean (Contact.isBlocked c)),
           (truthy_string (Contact.deletedAt c));
    cbn [negb andb List.length]; lia.
Qed.

(** X9: [toggleArchiveContact] leaves every contact with the given id
    archived as asked and not blocked, and [toggleBlockContact] leaves it
    blocked as asked and not archived; neither can make a list in which no
    contact is both archived and blocked into one in which some contact
    is. *)
Theorem toggles_keep_archive_and_block_apart
  (contactId : string) (flag : bool) (prev : list Contact.t) :
  (forall c, In c (toggleArchiveContact contactId flag prev) ->
             Contact.id c = contactId ->
             Contact.isArchived c = Some flag /\ Contact.isBlocked c = Some false)
  /\ (forall c, In c (toggleBlockContact contactId flag prev) ->
                Contact.id c = contactId ->
                Contact.isBlocked c = Some flag /\ Contact.isArchived c = Some false)
  /\ (forallb exclusive prev = true ->
      forallb exclusive (toggleArchiveContact contactId flag prev) = true
      /\ forallb exclusive (toggleBlockContact contactId flag prev) = true).
Proof.
  split; [| split].
  - intros c Hin Hid. apply in_map_iff in Hin as (c0 & Hc & _).
    destruct (String.eqb_spec (Contact.id c0) contactId) as [_ | Hne].
    + subst c. split; reflexivity.
    + subst c. contradiction.
  - intros c Hin Hid. apply in_map_iff in Hin as (c0 & Hc & _).
    destruct (String.eqb_spec (Contact.id c0) contactId) as [_ | Hne].
    + subst c. split; reflexivity.
    + subst c. contradiction.
  - intros Hall. rewrite forallb_forall in Hall.
    split; apply forallb_forall; intros c Hin;
      apply in_map_iff in Hin as (c0 & Hc & Hin0); subst c;
      (destruct (String.eqb (Contact.id c0) contactId); [| now apply Hall]);
      unfold exclusive; cbn; now rewrite ?andb_false_r.
Qed.

Lemma filter_none {A : Type} (p : A -> bool) (l : list A) :
  (forall x, In x l -> p x = false) -> filter p l = [].
Proof.
  induction l as [| x l IH]; intros Hp; [reflexivity |].
  cbn [filter]. rewrite (Hp x) by now left.
  apply IH. intros y Hy. apply Hp. now right.
Qed.

Lemma same_id_same_contact (cs : list Contact.t) (a b : Contact.t) :
  NoDup (map Contact.id cs) -> In a cs -> In b cs ->
  Contact.id a = Contact.id b -> a = b.
Proof.
  induction cs as [| c cs IH]; intros Hnd Ha Hb Hid; [contradiction |].
  cbn [map] in Hnd. inversion Hnd as [| ? ? Hnotin Hnd']; subst.
  destruct Ha as [-> | Ha], Hb as [-> | Hb].
  - reflexivity.
  - exfalso. apply Hnotin. rewrite Hid. now apply in_map.
  - exfalso. apply Hnotin. rewrite <- Hid. now apply in_map.
  - now apply IH.
Qed.

(** What moving to the trash does to a view whose test fails on every
    contact that carries a trash timestamp. *)
Lemma trash_leaves_view (p : Contact.t -> bool)
  (contactIds : list string) (clock : nat -> string) :
  (forall c i, p (Contact.with_deletedAt c (Some (clock i))) = false) ->
  forall (prev : list Contact.t) (from : nat),
    filter p
      (map_from from
         (fun i c => if includes contactIds (Contact.id c)
                     then Contact.with_deletedAt c (Some (clock i))
                     else c) prev)
    = filter (fun c => negb (includes contactIds (Contact.id c))) (filter p prev).
Proof.
  intros Hp prev. induction prev as [| c prev IH]; intros from; [reflexivity |].
  cbn [map_from filter].
  destruct (includes contactIds (Contact.id c)) eqn:Hinc.
  - rewrite Hp, IH. destruct (p c); [| reflexivity].
    cbn [filter]. now rewrite Hinc.
  - rewrite IH. destruct (p c); [| reflexivity].
    cbn [filter]. now rewrite Hinc.
Qed.

(** X10: once [moveContactsToTrash] has run (every clock reading being a
    non-empty timestamp), the active, archived and blocked views are what
    they were minus the contacts whose id was given, and the trash holds,
    in list order, the contacts that were in it or whose id was given. *)
Theorem trash_moves_contacts_between_views
  (contactIds : list string) (clock : nat -> string) (prev : list Contact.t) :
  (forall i, clock i <> "") ->
  let moved := moveContactsToTrash contactIds clock prev in
  let kept := fun c => negb (includes contactIds (Contact.id c)) in
  activeContacts moved = filter kept (activeContacts prev)
  /\ archivedContacts moved = filter kept (archivedContacts prev)
  /\ blockedContacts moved = filter kept (blockedContacts prev)
  /\ map Contact.id (trashContacts moved)
     = map Contact.id
         (filter (fun c => truthy_string (Contact.deletedAt c)
                           || includes contactIds (Contact.id c)) prev).
Proof.
  intros Hclock moved kept. subst moved kept.
  unfold moveContactsToTrash, activeContacts, archivedContacts, blockedContacts.
  repeat split.
  - apply trash_leaves_view. intros c i.
    cbn [Contact.with_deletedAt Contact.deletedAt].
    rewrite (truthy_nonempty _ (Hclock i)). now rewrite andb_false_r.
  - apply trash_leaves_view. intros c i.
    cbn [Contact.with_deletedAt Contact.deletedAt].
    rewrite (truthy_nonempty _ (Hclock i)). now rewrite andb_false_r.
  - apply trash_leaves_view. intros c i.
    cbn [Contact.with_deletedAt Contact.deletedAt].
    rewrite (truthy_nonempty _ (Hclock i)). now rewrite andb_false_r.
  - unfold trashContacts. generalize 0%nat.
    induction prev as [| c prev IH]; intros from; [reflexivity |].
    cbn [map_from filter].
    destruct (includes contactIds (Contact.id c)) eqn:Hinc.
    + cbn [Contact.with_deletedAt Contact.deletedAt].
      rewrite (truthy_nonempty _ (Hclock from)), orb_true_r.
      cbn [map]. now rewrite IH.
    + rewrite orb_false_r. destruct (truthy_string (Contact.deletedAt c));
        cbn [map]; now rewrite IH.
Qed.

(** X11: when no contact of the list has one of the given ids, which is
    when [moveContactsToTrash] returns before calling [setContacts], its
    updater would have left the list as it is. *)
Theorem trash_guard_skips_only_identity
  (contactIds : list string) (clock : nat -> string) (contacts : list Contact.t) :
  contactsToTrash contacts contactIds = [] ->
  moveContactsToTrash contactIds clock contacts = contacts.
Proof.
  unfold contactsToTrash, moveContactsToTrash. generalize 0%nat.
  induction contacts as [| c contacts IH]; intros from Hnone; [reflexivity |].
  cbn [filter] in Hnone. cbn [map_from].
  destruct (includes contactIds (Contact.id c)); [discriminate |].
  f_equal. now apply IH.
Qed.

(** X12: moving one id to the trash and restoring it gives back the list,
    every property of every contact reading as before, provided no
    contact with that id carried a trash timestamp before. *)
Theorem restore_undoes_trash
  (contactId : string) (clock : nat -> string) (prev : list Contact.t) :
  (forall c, In c prev -> Contact.id c = contactId -> Contact.deletedAt c = None) ->
  restoreContactFromTrash contactId (moveContactsToTrash [contactId] clock prev)
  = prev.
Proof.
  unfold restoreContactFromTrash, moveContactsToTrash. generalize 0%nat.
  induction prev as [| c prev IH]; intros from Hclean; [reflexivity |].
  cbn [map_from map]. rewrite IH by (intros c' Hin; apply Hclean; now right).
  f_equal. unfold includes. cbn [existsb]. rewrite orb_false_r.
  destruct (String.eqb_spec (Contact.id c) contactId) as [Hid | Hne].
  - cbn [Contact.with_deletedAt Contact.id]. rewrite Hid, String.eqb_refl.
    specialize (Hclean c (or_introl eq_refl) Hid).
    destruct c; cbn in *; now subst.
  - now apply String.eqb_neq in Hne as ->.
Qed.

(** X13: each bulk action of the settings page, applied to the list it was
    rendered from, empties its view: nothing stays archived after
    "unarchive all", blocked after "unblock all", or in the trash after
    "restore all" and after "empty trash". *)
Theorem bulk_actions_empty_their_view (contacts : list Contact.t) :
  archivedContacts (handleUnarchiveAll contacts contacts) = []
  /\ blockedContacts (handleUnblockAll contacts contacts) = []
  /\ trashContacts (handleRestoreAll contacts contacts) = []
  /\ trashContacts (handleEmptyTrash contacts contacts) = [].
Proof.
  repeat split; apply filter_none; intros c Hin.
  - apply in_map_iff in Hin as (c0 & <- & Hin0).
    destruct (includes _ (Contact.id c0)) eqn:Hinc; [reflexivity |].
    destruct (truthy_boolean (Contact.isArchived c0)
              && negb (truthy_string (Contact.deletedAt c0))) eqn:Hp;
      [| reflexivity].
    rewrite includes_ids_of in Hinc; [discriminate |].
    apply filter_In. now split.
  - apply in_map_iff in Hin as (c0 & <- & Hin0).
    destruct (includes _ (Contact.id c0)) eqn:Hinc; [reflexivity |].
    destruct (truthy_boolean (Contact.isBlocked c0)
              && negb (truthy_string (Contact.deletedAt c0))) eqn:Hp;
      [| reflexivity].
    rewrite includes_ids_of in Hinc; [discriminate |].
    apply filter_In. now split.
  - apply in_map_iff in Hin as (c0 & <- & Hin0).
    destruct (includes _ (Contact.id c0)) eqn:Hinc; [reflexivity |].
    destruct (truthy_string (Contact.deletedAt c0)) eqn:Hp; [| reflexivity].
    rewrite includes_ids_of in Hinc; [discriminate |].
    apply filter_In. now split.
  - apply filter_In in Hin as (Hin0 & Hinc). apply negb_true_iff in Hinc.
    destruct (truthy_string (Contact.deletedAt c)) eqn:Hp; [| reflexivity].
    rewrite includes_ids_of in Hinc; [discriminate |].
    apply filter_In. now split.
Qed.

(** X14: "empty trash" removes by id.  When the ids of the list are all
    different it removes exactly the contacts in the trash and keeps every
    other one, in order. *)
Theorem empty_trash_keeps_the_rest (contacts : list Contact.t) :
  NoDup (map Contact.id contacts) ->
  handleEmptyTrash contacts contacts
  = filter (fun c => negb (truthy_string (Contact.deletedAt c))) contacts.
Proof.
  intros Hnd. unfold handleEmptyTrash. apply filter_ext_in. intros c Hin.
  f_equal. destruct (truthy_string (Contact.deletedAt c)) eqn:Hp.
  - apply includes_ids_of. apply filter_In. now split.
  - destruct (includes _ (Contact.id c)) eqn:Hinc; [| reflexivity].
    apply includes_In, in_map_iff in Hinc as (c' & Hid & Hin').
    apply filter_In in Hin' as (Hin' & Hdel).
    rewrite (same_id_same_contact contacts c' c Hnd Hin' Hin Hid) in Hdel.
    congruence.
Qed.

(** X15: the updaters built on [map] never add, drop, reorder or re-identify
    a contact: the list of ids after [updateContact],
    [moveContactsToTrash], [restoreContactFromTrash], the two toggles,
    [logActivity], [handleUnlinkContact] and the three bulk changes is the
    list of ids before. *)
Theorem map_updaters_keep_ids (prev : list Contact.t) :
  (forall updatedContact,
      map Contact.id (updateContact updatedContact prev) = map Contact.id prev)
  /\ (forall contactIds clock,
        map Contact.id (moveContactsToTrash contactIds clock prev)
        = map Contact.id prev)
  /\ (forall contactId,
        map Contact.id (restoreContactFromTrash contactId prev)
        = map Contact.id prev)
  /\ (forall contactId archive,
        map Contact.id (toggleArchiveContact contactId archive prev)
        = map Contact.id prev)
  /\ (forall contactId block,
        map Contact.id (toggleBlockContact contactId block prev)
        = map Contact.id prev)
  /\ (forall contactId type notes clockId clockIso,
        map Contact.id (logActivity contactId type notes clockId clockIso prev)
        = map Contact.id prev)
  /\ (forall sourceId targetId,
        map Contact.id (handleUnlinkContact sourceId targetId prev)
        = map Contact.id prev)
  /\ (forall contacts,
        map Contact.id (handleUnarchiveAll contacts prev) = map Contact.id prev
        /\ map Contact.id (handleUnblockAll contacts prev) = map Contact.id prev
        /\ map Contact.id (handleRestoreAll contacts prev) = map Contact.id prev).
Proof.
  repeat split; intros.
  - apply map_ids. intros c.
    destruct (String.eqb_spec (Contact.id c) (Contact.id updatedContact));
      [symmetry; assumption | reflexivity].
  - apply map_from_ids. intros i c. now destruct (includes _ _).
  - apply map_ids. intros c. now destruct (String.eqb _ _).
  - apply map_ids. intros c. now destruct (String.eqb _ _).
  - apply map_ids. intros c. now destruct (String.eqb _ _).
  - apply map_from_ids. intros i c. now destruct (String.eqb _ _).
  - apply map_ids. intros c.
    destruct (String.eqb _ sourceId); [reflexivity |].
    now destruct (String.eqb _ targetId).
  - apply map_ids. intros c. now destruct (includes _ _).
  - apply map_ids. intros c. now destruct (includes _ _).
  - apply map_ids. intros c. now destruct (includes _ _).
Qed.

Lemma filter_all {A : Type} (p : A -> bool) (l : list A) :
  (forall x, In x l -> p x = true) -> filter p l = l.
Proof.
  induction l as [| x l IH]; intros Hp; [reflexivity |].
  cbn [filter]. rewrite (Hp x) by now left.
  f_equal. apply IH. intros y Hy. apply Hp. now right.
Qed.

Lemma filter_drops {A : Type} (p : A -> bool) (l : list A) (x : A) :
  In x l -> p x = false -> (List.length (filter p l) < List.length l)%nat.
Proof.
  induction l as [| y l IH]; intros Hin Hp; [contradiction |].
  cbn [filter]. destruct Hin as [-> | Hin].
  - rewrite Hp. pose proof (filter_length_le p l). simpl. lia.
  - specialize (IH Hin Hp). destruct (p y); simpl; lia.
Qed.

Lemma find_after_update (updatedContact : Contact.t) (prev : list Contact.t) :
  findById (updateContact updatedContact prev) (Contact.id updatedContact)
  = match findById prev (Contact.id updatedContact) with
    | Some _ => Some updatedContact
    | None => None
    end.
Proof.
  unfold findById, updateContact.
  induction prev as [| c prev IH]; [reflexivity |].
  cbn [map find].
  destruct (String.eqb (Contact.id c) (Contact.id updatedContact)) eqn:Hid.
  - now rewrite String.eqb_refl.
  - now rewrite Hid.
Qed.

(** X16: after [handleMergeContacts] no contact with one of the ids to
    remove is left.  When the id of the contact to keep is itself among
    them, the merged record is stored nowhere: the result is just the list
    without the removed ids.  Otherwise the merged record is what its id
    now finds, if the list had a contact with that id. *)
Theorem merge_removes_then_replaces
  (contactToKeep : Contact.t) (idsToRemove : list string)
  (prev : list Contact.t) :
  (forall c, In c (handleMergeContacts contactToKeep idsToRemove prev) ->
             includes idsToRemove (Contact.id c) = false)
  /\ (includes idsToRemove (Contact.id contactToKeep) = true ->
      handleMergeContacts contactToKeep idsToRemove prev
      = filter (fun c => negb (includes idsToRemove (Contact.id c))) prev)
  /\ (includes idsToRemove (Contact.id contactToKeep) = false ->
      findById (handleMergeContacts contactToKeep idsToRemove prev)
        (Contact.id contactToKeep)
      = match findById prev (Contact.id contactToKeep) with
        | Some _ => Some contactToKeep
        | None => None
        end).
Proof.
  unfold handleMergeContacts. split; [| split].
  - intros c Hin. apply in_map_iff in Hin as (c0 & Hc & Hin0).
    apply filter_In in Hin0 as (_ & Hkept). apply negb_true_iff in Hkept.
    destruct (String.eqb_spec (Contact.id c0) (Contact.id contactToKeep)) as [Hid | _].
    + subst c. now rewrite <- Hid.
    + now subst c.
  - intros Hlisted. rewrite <- (map_id (filter _ prev)) at 2.
    apply map_ext_in. intros c Hin.
    apply filter_In in Hin as (_ & Hkept). apply negb_true_iff in Hkept.
    destruct (String.eqb_spec (Contact.id c) (Contact.id contactToKeep)) as [Hid | _];
      [| reflexivity].
    rewrite Hid in Hkept. congruence.
  - intros Hfree.
    change (map _ (filter ?p prev)) with (updateContact contactToKeep (filter p prev)).
    rewrite find_after_update. unfold findById.
    assert (Hsame : forall l : list Contact.t,
               find (fun c => String.eqb (Contact.id c) (Contact.id contactToKeep))
                 (filter (fun c => negb (includes idsToRemove (Contact.id c))) l)
               = find (fun c => String.eqb (Contact.id c) (Contact.id contactToKeep)) l).
    { induction l as [| c l IH]; [reflexivity |]. cbn [filter find].
      destruct (String.eqb_spec (Contact.id c) (Contact.id contactToKeep)) as [Hid | Hne].
      - rewrite Hid, Hfree. cbn [negb find]. now rewrite Hid, String.eqb_refl.
      - destruct (includes idsToRemove (Contact.id c)); cbn [negb find]; [exact IH |].
        apply String.eqb_neq in Hne. now rewrite Hne. }
    now rewrite Hsame.
Qed.

(** X17: after [handleUnlinkContact] the links of every contact with the
    source id no longer name the target, and the links of every contact
    with the target id no longer name the source. *)
Theorem unlink_removes_both_directions
  (sourceId targetId : string) (prev : list Contact.t) (c : Contact.t) :
  In c (handleUnlinkContact sourceId targetId prev) ->
  (Contact.id c = sourceId ->
   forall ids, Contact.linkedContactIds c = Some ids -> ~ In targetId ids)
  /\ (Contact.id c = targetId ->
      forall ids, Contact.linkedContactIds c = Some ids -> ~ In sourceId ids).
Proof.
  assert (Hgone : forall links removed ids,
             without_link links removed = Some ids -> ~ In removed ids).
  { intros [l |] removed ids Heq; [| discriminate].
    injection Heq as <-. intros Hin. apply filter_In in Hin as (_ & Hne).
    now rewrite String.eqb_refl in Hne. }
  intros Hin. apply in_map_iff in Hin as (c0 & Hc & _).
  destruct (String.eqb_spec (Contact.id c0) sourceId) as [Hs | Hns].
  - subst c. cbn [Contact.with_linkedContactIds Contact.id Contact.linkedContactIds].
    split; intros Hid ids Hlinks.
    + now apply (Hgone _ _ _ Hlinks).
    + assert (sourceId = targetId) as -> by congruence.
      now apply (Hgone _ _ _ Hlinks).
  - destruct (String.eqb_spec (Contact.id c0) targetId) as [Ht | Hnt].
    + subst c. cbn [Contact.with_linkedContactIds Contact.id Contact.linkedContactIds].
      split; intros Hid ids Hlinks; [congruence |].
      now apply (Hgone _ _ _ Hlinks).
    + subst c. split; intros Hid; congruence.
Qed.

(** X18: a contact added by [addContact] is the one its id finds, also when
    an older contact has the same id; deleting that id permanently gives
    back the list as it was before the addition when no older contact had
    the id, and a shorter list when one had. *)
Theorem add_then_delete
  (contactData : Contact.t) (newId now : string) (prev : list Contact.t) :
  findById (addContact contactData newId now prev) newId
  = Some (Contact.as_new contactData newId now)
  /\ (findById prev newId = None ->
      deleteContactPermanently newId (addContact contactData newId now prev)
      = prev)
  /\ (forall older, findById prev newId = Some older ->
      (List.length
         (deleteContactPermanently newId (addContact contactData newId now prev))
       < List.length prev)%nat).
Proof.
  unfold findById, addContact, deleteContactPermanently.
  cbn [find filter Contact.as_new Contact.id]. rewrite String.eqb_refl.
  cbn [negb]. split; [reflexivity | split].
  - intros Hnone. apply filter_all. intros c Hin.
    now rewrite (find_none _ _ Hnone c Hin).
  - intros older Hold. apply find_some in Hold as (Hin & Hid).
    apply (filter_drops _ _ older Hin). now rewrite Hid.
Qed.

(** X19: [updateContact] replaces and never inserts: afterwards the id of
    the updated contact finds the updated contact if the list had a contact
    with that id and nothing if it had none, and every other id finds what
    it found before. *)
Theorem update_then_find (updatedContact : Contact.t) (prev : list Contact.t) :
  findById (updateContact updatedContact prev) (Contact.id updatedContact)
  = match findById prev (Contact.id updatedContact) with
    | Some _ => Some updatedContact
    | None => None
    end
  /\ (forall otherId, otherId <> Contact.id updatedContact ->
      findById (updateContact updatedContact prev) otherId
      = findById prev otherId).
Proof.
  split; [apply find_after_update |].
  intros otherId Hother. unfold findById, updateContact.
  induction prev as [| c prev IH]; [reflexivity |].
  cbn [map find].
  destruct (String.eqb_spec (Contact.id c) (Contact.id updatedContact)) as [Hid | _].
  - assert (Hno : String.eqb (Contact.id updatedContact) otherId = false)
      by (apply String.eqb_neq; congruence).
    rewrite Hno. rewrite Hid. rewrite Hno. exact IH.
  - destruct (String.eqb (Contact.id c) otherId); [reflexivity | exact IH].
Qed.

End ContactList.

(** ** The further statements at concrete states and lists *)

Section FurtherInstances.

Import Js Samples Contacts Book.

Lemma undo_reverts_committed_set_at_middle :
  Js.strict_eq (resolve (Value (JsNumber 5)) (state (present middle)))
    (state (present middle)) = false
  /\ run Js.strict_eq middle
       [CallSet (Value (JsNumber 5)) (Some "jump") "9:41:07 AM"; CallUndo]
     = Some {| past := past middle;
               present := present middle;
               future := [num_entry 5 "jump"] |}
  /\ run Js.strict_eq middle
       [CallSet (Value (JsNumber 5)) (Some "jump") "9:41:07 AM"; CallUndo; CallRedo]
     = perform Js.strict_eq middle
         (CallSet (Value (JsNumber 5)) (Some "jump") "9:41:07 AM").
Proof.
  split; [reflexivity |].
  apply (undo_reverts_committed_set Js.strict_eq middle
           (Value (JsNumber 5)) (Some "jump") "9:41:07 AM").
  reflexivity.
Defined.

Lemma batched_unguarded_calls_run_in_order_at_middle :
  forallb unguarded
    [ CallSet (Value (JsNumber 7)) (Some "seven") "9:41:07 AM";
      CallSet (Updater (fun v => v)) None "9:41:08 AM";
      CallClearHistory;
      CallSet (Value (JsNumber 8)) None "9:41:09 AM" ] = true
  /\ perform_batch Js.strict_eq middle
       [ CallSet (Value (JsNumber 7)) (Some "seven") "9:41:07 AM";
         CallSet (Updater (fun v => v)) None "9:41:08 AM";
         CallClearHistory;
         CallSet (Value (JsNumber 8)) None "9:41:09 AM" ]
     = run Js.strict_eq middle
         [ CallSet (Value (JsNumber 7)) (Some "seven") "9:41:07 AM";
           CallSet (Updater (fun v => v)) None "9:41:08 AM";
           CallClearHistory;
           CallSet (Value (JsNumber 8)) None "9:41:09 AM" ].
Proof.
  split; [reflexivity |].
  apply (batched_unguarded_calls_run_in_order Js.strict_eq middle).
  reflexivity.
Defined.

Lemma batched_undos_at_samples :
  (past fresh = []
   /\ perform_batch Js.strict_eq fresh (repeat CallUndo 3) = Some fresh)
  /\ ((2 <= List.length (past deep))%nat
      /\ perform_batch Js.strict_eq deep (repeat CallUndo 2)
         = run Js.strict_eq deep (repeat CallUndo 2))
  /\ (past deep <> []
      /\ (List.length (past deep) < 3)%nat
      /\ perform_batch Js.strict_eq deep (repeat CallUndo 3) = None).
Proof.
  assert (Hdepth : (2 <= List.length (past deep))%nat) by (simpl; lia).
  assert (Hpast : past deep <> []) by discriminate.
  assert (Hshort : (List.length (past deep) < 3)%nat) by (simpl; lia).
  exact (conj (conj eq_refl
                 (proj1 (batched_undos Js.strict_eq fresh 3) eq_refl))
           (conj (conj Hdepth
                    (proj1 (proj2 (batched_undos Js.strict_eq deep 2)) Hdepth))
              (conj Hpast
                 (conj Hshort
                    (proj2 (proj2 (batched_undos Js.strict_eq deep 3))
                       Hpast Hshort))))).
Defined.

Lemma batched_guards_read_the_render_at_fresh :
  past fresh = []
  /\ future fresh = []
  /\ perform_batch Js.strict_eq fresh
       [CallSet (Value (JsNumber 1)) (Some "inc") "9:41:07 AM"; CallUndo]
     = perform_batch Js.strict_eq fresh
         [CallSet (Value (JsNumber 1)) (Some "inc") "9:41:07 AM"]
  /\ perform_batch Js.strict_eq fresh [CallRedo; CallClearHistory]
     = perform_batch Js.strict_eq fresh [CallClearHistory].
Proof.
  exact (conj eq_refl
           (conj eq_refl
              (conj (proj1 (batched_guards_read_the_render Js.strict_eq fresh
                              [CallSet (Value (JsNumber 1)) (Some "inc") "9:41:07 AM";
                               CallUndo]) eq_refl)
                 (proj2 (batched_guards_read_the_render Js.strict_eq fresh
                           [CallRedo; CallClearHistory]) eq_refl)))).
Defined.

Lemma undo_redo_sequences_preserve_timeline_at_deep :
  forallb (fun c : Call JsValue => is_undo c || is_redo c)
    [CallUndo; CallRedo; CallRedo; CallRedo; CallUndo; CallUndo; CallUndo] = true
  /\ exists st',
      run Js.strict_eq deep
        [CallUndo; CallRedo; CallRedo; CallRedo; CallUndo; CallUndo; CallUndo]
      = Some st'
      /\ timeline st' = timeline deep.
Proof.
  split; [reflexivity |].
  apply (undo_redo_sequences_preserve_timeline Js.strict_eq
           [CallUndo; CallRedo; CallRedo; CallRedo; CallUndo; CallUndo; CallUndo]
           deep).
  reflexivity.
Defined.

Lemma toggles_keep_archive_and_block_apart_at_book :
  (In (Contact.with_archived_unblocked bob true)
     (toggleArchiveContact "2" true contacts)
   /\ Contact.id (Contact.with_archived_unblocked bob true) = "2"
   /\ Contact.isArchived (Contact.with_archived_unblocked bob true) = Some true
   /\ Contact.isBlocked (Contact.with_archived_unblocked bob true) = Some false)
  /\ (In (Contact.with_blocked_unarchived di true)
        (toggleBlockContact "4" true contacts)
      /\ Contact.id (Contact.with_blocked_unarchived di true) = "4"
      /\ Contact.isBlocked (Contact.with_blocked_unarchived di true) = Some true
      /\ Contact.isArchived (Contact.with_blocked_unarchived di true) = Some false)
  /\ (forallb exclusive contacts = true
      /\ forallb exclusive (toggleArchiveContact "4" false contacts) = true
      /\ forallb exclusive (toggleBlockContact "4" true contacts) = true).
Proof.
  assert (Hbob : In (Contact.with_archived_unblocked bob true)
                   (toggleArchiveContact "2" true contacts))
    by (right; left; reflexivity).
  assert (Hdi : In (Contact.with_blocked_unarchived di true)
                  (toggleBlockContact "4" true contacts))
    by (right; right; right; left; reflexivity).
  destruct (toggles_keep_archive_and_block_apart "2" true contacts)
    as (Harchive & _ & _).
  destruct (toggles_keep_archive_and_block_apart "4" true contacts)
    as (_ & Hblock & Hboth).
  destruct (toggles_keep_archive_and_block_apart "4" false contacts)
    as (_ & _ & Hboth').
  exact (conj (conj Hbob (conj eq_refl (Harchive _ Hbob eq_refl)))
           (conj (conj Hdi (conj eq_refl (Hblock _ Hdi eq_refl)))
              (conj eq_refl
                 (conj (proj1 (Hboth' eq_refl)) (proj2 (Hboth eq_refl)))))).
Defined.

Lemma trash_moves_contacts_between_views_at_book :
  (forall i, clock i <> "")
  /\ activeContacts (moveContactsToTrash ["2"; "4"] clock contacts)
     = filter (fun c => negb (includes ["2"; "4"] (Contact.id c)))
         (activeContacts contacts)
  /\ archivedContacts (moveContactsToTrash ["2"; "4"] clock contacts)
     = filter (fun c => negb (includes ["2"; "4"] (Contact.id c)))
         (archivedContacts contacts)
  /\ blockedContacts (moveContactsToTrash ["2"; "4"] clock contacts)
     = filter (fun c => negb (includes ["2"; "4"] (Contact.id c)))
         (blockedContacts contacts)
  /\ map Contact.id (trashContacts (moveContactsToTrash ["2"; "4"] clock contacts))
     = map Contact.id
         (filter (fun c => truthy_string (Contact.deletedAt c)
                           || includes ["2"; "4"] (Contact.id c)) contacts).
Proof.
  assert (Hclock : forall i, clock i <> "") by (intros i; discriminate).
  split; [exact Hclock |].
  exact (trash_moves_contacts_between_views ["2"; "4"] clock contacts Hclock).
Defined.

Lemma trash_guard_skips_only_identity_at_book :
  contactsToTrash contacts ["9"] = []
  /\ moveContactsToTrash ["9"] clock contacts = contacts.
Proof.
  split; [reflexivity |].
  apply (trash_guard_skips_only_identity ["9"] clock contacts). reflexivity.
Defined.

Lemma restore_undoes_trash_at_book :
  (forall c, In c contacts -> Contact.id c = "2" -> Contact.deletedAt c = None)
  /\ restoreContactFromTrash "2" (moveContactsToTrash ["2"] clock contacts)
     = contacts.
Proof.
  assert (Hclean : forall c, In c contacts -> Contact.id c = "2" ->
                             Contact.deletedAt c = None).
  { intros c [<- | [<- | [<- | [<- | []]]]] Hid;
      first [reflexivity | discriminate Hid]. }
  split; [exact Hclean |].
  exact (restore_undoes_trash "2" clock contacts Hclean).
Defined.

Lemma empty_trash_keeps_the_rest_at_book :
  NoDup (map Contact.id contacts)
  /\ handleEmptyTrash contacts contacts
     = filter (fun c => negb (truthy_string (Contact.deletedAt c))) contacts.
Proof.
  assert (Hnd : NoDup (map Contact.id contacts)).
  { repeat constructor; simpl; intuition discriminate. }
  split; [exact Hnd |].
  exact (empty_trash_keeps_the_rest contacts Hnd).
Defined.

Lemma merge_removes_then_replaces_at_book :
  (In (Contact.with_isArchived ann false)
     (handleMergeContacts (Contact.with_isArchived ann false) ["2"] contacts)
   /\ includes ["2"] (Contact.id (Contact.with_isArchived ann false)) = false)
  /\ (includes ["1"; "2"] (Contact.id (Contact.with_isArchived ann false)) = true
      /\ handleMergeContacts (Contact.with_isArchived ann false) ["1"; "2"] contacts
         = filter (fun c => negb (includes ["1"; "2"] (Contact.id c))) contacts)
  /\ (includes ["2"] (Contact.id (Contact.with_isArchived ann false)) = false
      /\ findById
           (handleMergeContacts (Contact.with_isArchived ann false) ["2"] contacts)
           (Contact.id (Contact.with_isArchived ann false))
         = match findById contacts (Contact.id (Contact.with_isArchived ann false)) with
           | Some _ => Some (Contact.with_isArchived ann false)
           | None => None
           end).
Proof.
  assert (Hin : In (Contact.with_isArchived ann false)
                  (handleMergeContacts (Contact.with_isArchived ann false) ["2"] contacts))
    by (left; reflexivity).
  destruct (merge_removes_then_replaces (Contact.with_isArchived ann false)
              ["2"] contacts) as (Hgone & _ & Hfound).
  destruct (merge_removes_then_replaces (Contact.with_isArchived ann false)
              ["1"; "2"] contacts) as (_ & Hdropped & _).
  exact (conj (conj Hin (Hgone _ Hin))
           (conj (conj eq_refl (Hdropped eq_refl))
              (conj eq_refl (Hfound eq_refl)))).
Defined.

Lemma unlink_removes_both_directions_at_linked :
  In (Contact.with_linkedContactIds ann (Some []))
    (handleUnlinkContact "1" "2" linked)
  /\ Contact.id (Contact.with_linkedContactIds ann (Some [])) = "1"
  /\ Contact.linkedContactIds (Contact.with_linkedContactIds ann (Some [])) = Some []
  /\ ~ In "2" (@nil string)
  /\ In (Contact.with_linkedContactIds bob (Some []))
       (handleUnlinkContact "1" "2" linked)
  /\ Contact.id (Contact.with_linkedContactIds bob (Some [])) = "2"
  /\ ~ In "1" (@nil string).
Proof.
  assert (Hann : In (Contact.with_linkedContactIds ann (Some []))
                   (handleUnlinkContact "1" "2" linked))
    by (left; reflexivity).
  assert (Hbob : In (Contact.with_linkedContactIds bob (Some []))
                   (handleUnlinkContact "1" "2" linked))
    by (right; left; reflexivity).
  exact (conj Hann
           (conj eq_refl
              (conj eq_refl
                 (conj (proj1 (unlink_removes_both_directions "1" "2" linked _ Hann)
                          eq_refl [] eq_refl)
                    (conj Hbob
                       (conj eq_refl
                          (proj2 (unlink_removes_both_directions "1" "2" linked _ Hbob)
                             eq_refl [] eq_refl))))))).
Defined.

Lemma add_then_delete_at_book :
  (findById contacts "9" = None
   /\ deleteContactPermanently "9"
        (addContact bob "9" "2024-05-01T10:00:00.000Z" contacts)
      = contacts)
  /\ (findById contacts "1" = Some ann
      /\ (List.length
            (deleteContactPermanently "1"
               (addContact bob "1" "2024-05-01T10:00:00.000Z" contacts))
          < List.length contacts)%nat).
Proof.
  exact (conj (conj eq_refl
                 (proj1 (proj2 (add_then_delete bob "9"
                                  "2024-05-01T10:00:00.000Z" contacts)) eq_refl))
           (conj eq_refl
              (proj2 (proj2 (add_then_delete bob "1"
                               "2024-05-01T10:00:00.000Z" contacts)) ann eq_refl))).
Defined.

Lemma update_then_find_at_book :
  "2" <> Contact.id (Contact.with_isArchived ann true)
  /\ findById (updateContact (Contact.with_isArchived ann true) contacts) "2"
     = findById contacts "2".
Proof.
  assert (Hother : "2" <> Contact.id (Contact.with_isArchived ann true))
    by discriminate.
  split; [exact Hother |].
  exact (proj2 (update_then_find (Contact.with_isArchived ann true) contacts)
           "2" Hother).
Defined.

End FurtherInstances.
